(** * QuantumTimeTravel: the planning core, embedded and verified

    The development follows the Python package [quantum_time_travel]:

    - [fsm.py]      the weighted state graph ([FSM], [add_transition],
                    [transitions]);
    - [graph.py]    [bellman_ford] and [detect_any_negative_cycle];
    - [planner.py]  [_shortest_path] and [plan_cycle_ABC];
    - [spec.py]     [_gamma] and [aggregate_cost_with_breakdown];
    - [logger.py]   [_redact];
    - [cli.py]      [cmd_plan].

    It has three parts: the model of the code, the vocabulary of the
    statements (walks, cycles, invariants, Dijkstra's algorithm as a
    reference, the graphs of the test suite), and the proofs.

    Number model.  Python floats are idealised: a finite float is an exact
    number and [float("inf")] is a separate value; rounding, overflow and
    NaN are outside the model.  In the graph code costs are only added and
    compared, so finite costs are rationals ([Q]) and every definition
    computes; two distances are compared as rationals ([eqv]).  The cost
    aggregator also takes a square root and a logarithm; it is modelled
    over the reals ([R]).

    Python dictionaries keep insertion order and the order in which edges
    are enumerated decides which of several equally short paths is found,
    so the edge store of the FSM is an ordered association list.  The
    [dist] and [pred] dictionaries of the shortest-path code are only read
    by key; they are finite maps ([gmap]).  A [KeyError] or a [ValueError]
    is a value of the [outcome] type. *)

From Stdlib Require Import QArith Reals Psatz.
From stdpp Require Import gmap strings list fin_maps.

(** ** Exceptions *)

Inductive outcome (A : Type) : Type :=
| Ok (a : A)
| Raise (exn : string).
Arguments Ok {A} a.
Arguments Raise {A} exn.

Definition obind {A B} (m : outcome A) (f : A → outcome B) : outcome B :=
  match m with
  | Ok a => f a
  | Raise e => Raise e
  end.

Notation "x ←! m ; k" := (obind m (λ x, k))
  (at level 20, m at level 100, k at level 200, right associativity,
   format "x  ←!  m ;  '/' k").
Notation "' x ←! m ; k" := (obind m (λ x, k))
  (at level 20, x pattern, m at level 100, k at level 200,
   right associativity, format "' x  ←!  m ;  '/' k").

Definition raises {A} (m : outcome A) : Prop :=
  match m with Ok _ => False | Raise _ => True end.

Definition KeyError : string := "KeyError".

(** [d[k]] on a dictionary read by key. *)
Definition getitem `{Countable K} {V} (d : gmap K V) (k : K) : outcome V :=
  match d !! k with
  | Some v => Ok v
  | None => Raise KeyError
  end.

(** ** Floats with infinity *)

#[global] Instance Qlt_decision (x y : Q) : Decision (x < y)%Q :=
  decide (Qnum x * QDen y < Qnum y * QDen x)%Z.
#[global] Instance Qle_decision (x y : Q) : Decision (x <= y)%Q :=
  decide (Qnum x * QDen y ≤ Qnum y * QDen x)%Z.

Module Float.

Inductive ext : Type :=
| Fin (q : Q)
| Inf.

Definition inf : ext := Inf.

(** [x + w] for a finite [w]. *)
Definition add (x : ext) (w : Q) : ext :=
  match x with
  | Fin q => Fin (q + w)
  | Inf => Inf
  end.

(** [x + y]. *)
Definition plus (x y : ext) : ext :=
  match x, y with
  | Fin a, Fin b => Fin (a + b)
  | _, _ => Inf
  end.

(** [x < y]. *)
Definition ltb (x y : ext) : bool :=
  match x, y with
  | Fin a, Fin b => bool_decide (a < b)%Q
  | Fin _, Inf => true
  | Inf, _ => false
  end.

(** [x == float("inf")]. *)
Definition is_inf (x : ext) : bool :=
  match x with Inf => true | Fin _ => false end.

(** Order and equality of values, for statements. *)
Definition le (x y : ext) : Prop :=
  match x, y with
  | _, Inf => True
  | Fin a, Fin b => (a <= b)%Q
  | Inf, Fin _ => False
  end.

Definition eqv (x y : ext) : Prop :=
  match x, y with
  | Inf, Inf => True
  | Fin a, Fin b => (a == b)%Q
  | _, _ => False
  end.

End Float.

Import Float.

(** ** Insertion-ordered dictionaries *)

Module OrderedDict.
Section odict.
Context {K V : Type} `{EqDecision K}.

Definition odict := list (K * V).

(** [d.get(k)] *)
Fixpoint get (k : K) (d : list (K * V)) : option V :=
  match d with
  | [] => None
  | (k', v) :: r => if decide (k = k') then Some v else get k r
  end.

(** [d[k] = v]: an existing key keeps its place, a new key goes last. *)
Fixpoint set (k : K) (v : V) (d : list (K * V)) : list (K * V) :=
  match d with
  | [] => [(k, v)]
  | (k', v') :: r =>
      if decide (k = k') then (k', v) :: r else (k', v') :: set k v r
  end.

End odict.
Arguments odict : clear implicits.
End OrderedDict.

(** ** fsm.py: the weighted state graph *)

Module Fsm.
Import OrderedDict.
Section fsm.
Context {State Event : Type} `{Countable State} `{EqDecision Event}.

Record Transition : Type := mkTransition {
  src : State;
  event : option Event;
  dst : State;
  weight : Q;
}.

(** [self.states], [self.initial] and [self._edges]: the edge store maps
    [(src, event)] to a bucket, itself a dictionary from [dst] to the
    weight. *)
Record FSM : Type := mkFSM {
  states : gset State;
  initial : State;
  _edges : odict (State * option Event) (odict State Q);
}.

(** [FSM.__init__] *)
Definition new (sts : list State) (init : State) : outcome FSM :=
  let s : gset State := list_to_set sts in
  if decide (init ∉ s) then Raise "initial state not in states"
  else Ok (mkFSM s init []).

(** [FSM.add_transition]: the outcome and the object after the call.
    The bucket found or created by [setdefault] is the one stored in
    [_edges], so writing [bucket[dst]] writes the store. *)
Definition add_transition (fsm : FSM) (src dst : State)
    (event : option Event) (weight : Q) : outcome unit * FSM :=
  if decide (src ∉ states fsm ∨ dst ∉ states fsm)
  then (Raise "src/dst must be existing states", fsm)
  else
    let key := (src, event) in
    let bucket := default [] (get key (_edges fsm)) in
    (Ok (), mkFSM (states fsm) (initial fsm)
              (set key (set dst weight bucket) (_edges fsm))).

(** [FSM.neighbors] *)
Definition neighbors (fsm : FSM) (src : State) (event : option Event)
  : odict State Q :=
  default [] (get (src, event) (_edges fsm)).

(** [FSM.transitions], the generator run to its end. *)
Definition transitions (fsm : FSM) : list Transition :=
  '(k, dsts) ← _edges fsm;
  '(d, w) ← dsts;
  [mkTransition k.1 k.2 d w].

(** The weight stored for a [(src, event, dst)] key. *)
Definition edge_weight (fsm : FSM) (s : State) (e : option Event)
    (d : State) : option Q :=
  get (s, e) (_edges fsm) ≫= get d.

(** Every stored edge joins registered states. *)
Definition edges_closed (fsm : FSM) : Prop :=
  ∀ t, t ∈ transitions fsm → src t ∈ states fsm ∧ dst t ∈ states fsm.

(** The graphs a client can build: [FSM(...)] followed by calls of
    [add_transition], each of which may raise. *)
Inductive built : FSM → Prop :=
| built_new sts init fsm :
    new sts init = Ok fsm → built fsm
| built_add fsm s d e w :
    built fsm → built (add_transition fsm s d e w).2.

(** Dictionary keys are unique, in the store and in every bucket. *)
Definition keys_unique (fsm : FSM) : Prop :=
  NoDup (_edges fsm).*1 ∧ ∀ k b, (k, b) ∈ _edges fsm → NoDup b.*1.

End fsm.
Arguments Transition : clear implicits.
Arguments FSM _ _ {_ _}.
End Fsm.

(** ** graph.py: Bellman-Ford and the negative-cycle detector *)

Module Graph.

Record Edge (Node : Type) : Type := mkEdge {
  u : Node;
  v : Node;
  w : Q;
}.
Arguments mkEdge {Node} u v w.
Arguments u {Node} e.
Arguments v {Node} e.
Arguments w {Node} e.

(** [for x in l: s = body(s, x)], where the body may raise. *)
Fixpoint for_each {S A} (body : S → A → outcome S) (l : list A) (s : S)
  : outcome S :=
  match l with
  | [] => Ok s
  | x :: r => s' ←! body s x; for_each body r s'
  end.

Section graph.
Context {Node : Type} `{Countable Node}.

(** [{n: x for n in nodes_list}] *)
Definition dict_of_keys {V} (nodes_list : list Node) (x : V)
  : gmap Node V :=
  foldl (λ m n, <[n:=x]> m) ∅ nodes_list.

(** The body of the inner loop of [bellman_ford], on the loop state
    [(dist, pred, changed)]. *)
Definition relax (st : gmap Node ext * gmap Node (option Node) * bool)
    (e : Edge Node)
  : outcome (gmap Node ext * gmap Node (option Node) * bool) :=
  let '(dist, pred, changed) := st in
  du ←! getitem dist (u e);
  dv ←! getitem dist (v e);
  if ltb (add du (w e)) dv
  then Ok (<[v e := add du (w e)]> dist, <[v e := Some (u e)]> pred, true)
  else Ok st.

(** [for _ in range(k)]: a pass over the edges, left early when
    nothing changed. *)
Fixpoint relax_rounds (k : nat) (edges_list : list (Edge Node))
    (dist : gmap Node ext) (pred : gmap Node (option Node))
  : outcome (gmap Node ext * gmap Node (option Node)) :=
  match k with
  | O => Ok (dist, pred)
  | S k' =>
      '(dist', pred', changed) ←!
        for_each relax edges_list (dist, pred, false);
      if changed : bool then relax_rounds k' edges_list dist' pred'
      else Ok (dist', pred')
  end.

(** The closing pass: [True] at the first edge that still relaxes. *)
Fixpoint still_relaxes (dist : gmap Node ext)
    (edges_list : list (Edge Node)) : outcome bool :=
  match edges_list with
  | [] => Ok false
  | e :: r =>
      du ←! getitem dist (u e);
      dv ←! getitem dist (v e);
      if ltb (add du (w e)) dv then Ok true else still_relaxes dist r
  end.

Definition bellman_ford (nodes : list Node) (edges : list (Edge Node))
    (source : Node)
  : outcome (gmap Node ext * gmap Node (option Node) * bool) :=
  let nodes_list := nodes in
  let dist := dict_of_keys nodes_list inf in
  let pred := dict_of_keys nodes_list (None : option Node) in
  let dist := <[source := Fin 0]> dist in
  let edges_list := edges in
  '(dist, pred) ←!
    relax_rounds (length nodes_list - 1) edges_list dist pred;
  neg ←! still_relaxes dist edges_list;
  Ok (dist, pred, neg).

(** In [detect_any_negative_cycle] the super source is a fresh object:
    here a node is [Some n] and the super source is [None]. *)
Definition dist_get (dist : gmap (option Node) ext) (n : option Node)
  : ext :=
  default inf (dist !! n).

Definition relax_get (dist : gmap (option Node) ext)
    (e : Edge (option Node)) : gmap (option Node) ext :=
  if ltb (add (dist_get dist (u e)) (w e)) (dist_get dist (v e))
  then <[v e := add (dist_get dist (u e)) (w e)]> dist
  else dist.

Definition super_edges (nodes_list : list Node) (edges : list (Edge Node))
  : list (Edge (option Node)) :=
  ((λ e, mkEdge (Some (u e)) (Some (v e)) (w e)) <$> edges)
    ++ ((λ n, mkEdge None (Some n) 0) <$> nodes_list).

Definition detect_any_negative_cycle (nodes : list Node)
    (edges : list (Edge Node)) : bool :=
  let nodes_list := nodes in
  let dist : gmap (option Node) ext :=
    foldl (λ m n, <[Some n := Fin 0]> m) ∅ nodes_list in
  let edges_list := super_edges nodes_list edges in
  let dist :=
    Nat.iter (length nodes_list - 1)
      (λ dist, foldl relax_get dist edges_list) dist in
  existsb
    (λ e, ltb (add (dist_get dist (u e)) (w e)) (dist_get dist (v e)))
    edges_list.

End graph.
End Graph.

(** ** planner.py: the three-leg cycle planner *)

Module Planner.
Import Fsm Graph.

Record PlanResult (State : Type) : Type := mkPlanResult {
  path : list State;
  cost : ext;
  ok : bool;
  reason : string;
}.
Arguments mkPlanResult {State} path cost ok reason.
Arguments path {State} p.
Arguments cost {State} p.
Arguments ok {State} p.
Arguments reason {State} p.

Section planner.
Context {State Event : Type} `{Countable State} `{EqDecision Event}.

Definition _edges_from_fsm (fsm : FSM State Event) : list (Edge State) :=
  (λ t, mkEdge (src t) (dst t) (weight t)) <$> transitions fsm.

(** How the [while cur is not None] loop of [_shortest_path] ends. *)
Inductive walk_exit : Type :=
| Finished (path : list State)
| Revisited.

(** The loop, on [(path, cur, visited)].  Every turn that does not leave
    adds a node to [visited]; [None] is a loop cut short by [fuel]. *)
Fixpoint walk_back (fuel : nat) (pred : gmap State (option State))
    (path : list State) (cur : option State) (visited : gset State)
  : option walk_exit :=
  match cur with
  | None => Some (Finished path)
  | Some c =>
      if decide (c ∈ visited) then Some Revisited
      else
        match fuel with
        | O => None
        | S fuel' =>
            walk_back fuel' pred (path ++ [c]) (mjoin (pred !! c))
              ({[c]} ∪ visited)
        end
  end.

(** Turns that always suffice: the nodes met are [dst] and values of
    [pred]. *)
Definition walk_fuel (pred : gmap State (option State)) : nat :=
  S (size pred).

Definition _shortest_path (nodes : list State) (edges : list (Edge State))
    (src dst : State) : outcome (list State * ext * string) :=
  '(dist, pred, has_neg_cycle) ←! bellman_ford nodes edges src;
  if has_neg_cycle : bool then Ok ([], inf, "negative cycle detected")
  else if is_inf (default inf (dist !! dst))
  then Ok ([], inf, "unreachable")
  else
    match walk_back (walk_fuel pred) pred [] (Some dst) ∅ with
    | None => Raise "walk_back: out of fuel"
    | Some Revisited => Ok ([], inf, "path reconstruction cycle detected")
    | Some (Finished path) =>
        let path := reverse path in
        match path with
        | p0 :: _ =>
            if decide (p0 ≠ src)
            then Ok ([], inf, "path reconstruction failed")
            else d ←! getitem dist dst; Ok (path, d, "")
        | [] => d ←! getitem dist dst; Ok (path, d, "")
        end
    end.

Definition is_empty (p : list State) : bool :=
  match p with [] => true | _ => false end.

Definition plan_cycle_ABC (fsm : FSM State Event) (A B C : State)
    (forbid_negative_edges : bool) : outcome (PlanResult State) :=
  if decide (A ∉ states fsm ∨ B ∉ states fsm ∨ C ∉ states fsm)
  then Ok (mkPlanResult [] inf false "A/B/C not in FSM states")
  else
    let edges := _edges_from_fsm fsm in
    let nodes := elements (states fsm) in
    let edges :=
      if forbid_negative_edges
      then filter (λ e, (0 <= w e)%Q) edges else edges in
    if detect_any_negative_cycle nodes edges
    then Ok (mkPlanResult [] inf false "negative cycle exists in graph")
    else
      '(p1, c1, r1) ←! _shortest_path nodes edges A B;
      if is_empty p1
      then Ok (mkPlanResult [] inf false ("A->B planning failed: " +:+ r1))
      else
      '(p2, c2, r2) ←! _shortest_path nodes edges B C;
      if is_empty p2
      then Ok (mkPlanResult [] inf false ("B->C planning failed: " +:+ r2))
      else
      '(p3, c3, r3) ←! _shortest_path nodes edges C A;
      if is_empty p3
      then Ok (mkPlanResult [] inf false ("C->A planning failed: " +:+ r3))
      else
        let path := p1 ++ drop 1 p2 ++ drop 1 p3 in
        let total_cost := plus (plus c1 c2) c3 in
        Ok (mkPlanResult path total_cost true "ok").

End planner.
End Planner.

(** ** spec.py: the cost aggregator *)

#[global] Instance Rlt_decision (x y : R) : Decision (x < y)%R := Rlt_dec x y.
#[global] Instance Rle_decision (x y : R) : Decision (x <= y)%R := Rle_dec x y.
#[global] Instance Rgt_decision (x y : R) : Decision (x > y)%R := Rgt_dec x y.
#[global] Instance Rge_decision (x y : R) : Decision (x >= y)%R := Rge_dec x y.
#[global] Instance Req_decision : EqDecision R := Req_dec_T.

Module Spec.
Local Open Scope R_scope.

Definition C_M_PER_S : R := 299792458.

Record AggregationPolicy : Type := mkPolicy {
  energy_weight : R;
  earth_time_weight : R;
  crew_time_weight : R;
  risk_weight : R;
  allow_negative_edges : bool;
  strict_invariants : bool;
  energy_scale : R;
  infer_velocity_from_distance_and_duration : bool;
  mode : option string;
}.

(** The dataclass defaults. *)
Definition default_policy : AggregationPolicy :=
  mkPolicy 1 0.1 0.2 2 true true 1e9 true None.

(** Float division, [math.sqrt] and [math.log] with their exceptions. *)
Definition fdiv (x y : R) : outcome R :=
  if decide (y = 0) then Raise "ZeroDivisionError" else Ok (x / y).

Definition math_sqrt (x : R) : outcome R :=
  if decide (x < 0) then Raise "math domain error" else Ok (sqrt x).

Definition math_log (x : R) : outcome R :=
  if decide (x <= 0) then Raise "math domain error" else Ok (ln x).

(** [str.lower] on ASCII letters. *)
Definition lower_ascii (c : Ascii.ascii) : Ascii.ascii :=
  let n := Ascii.nat_of_ascii c in
  if (65 <=? n)%nat && (n <=? 90)%nat then Ascii.ascii_of_nat (n + 32)
  else c.

Fixpoint lower (s : string) : string :=
  match s with
  | EmptyString => EmptyString
  | String c r => String (lower_ascii c) (lower r)
  end.

Definition _gamma (beta : R) : outcome R :=
  if decide (beta < 0 ∨ beta >= 1)
  then Raise "velocity_fraction_c must be in [0,1)"
  else
    s ←! math_sqrt (1 - beta * beta);
    fdiv 1 s.

Record EffectiveWeights : Type := mkWeights {
  ew_energy : R;
  ew_earth_time : R;
  ew_crew_time : R;
  ew_risk : R;
}.

Record Terms : Type := mkTerms {
  energy_term : R;
  time_term : R;
  risk_term : R;
}.

Record Breakdown : Type := mkBreakdown {
  bd_energy_j : R;
  bd_distance_m : R;
  bd_velocity_fraction_c : R;
  bd_gamma : R;
  bd_duration_s : R;
  bd_crew_time_s : R;
  bd_risk_prob : R;
  bd_risk_penalty : R;
  bd_credits : R;
  bd_effective_weights : EffectiveWeights;
  bd_terms : Terms;
  bd_warnings : list string;
}.

(** [attrs.get(key, 0.0)] on a mapping from names to numbers. *)
Definition attr (attrs : gmap string R) (key : string) : R :=
  default 0 (attrs !! key).

(** [duration_s], given or derived from the two timestamps. *)
Definition resolve_duration (attrs : gmap string R) : R :=
  match attrs !! "duration_s" with
  | Some d => d
  | None =>
      match attrs !! "earth_departure_epoch_s",
            attrs !! "earth_arrival_epoch_s" with
      | Some dep, Some arr => Rmax 0 (arr - dep)
      | _, _ => 0
      end
  end.

(** The [if policy.strict_invariants:] block before velocity inference. *)
Definition check_raw (energy_j distance_m mass_kg duration_s risk_prob : R)
    (beta : option R) : outcome unit :=
  if decide (energy_j < 0 ∨ distance_m < 0 ∨ mass_kg < 0 ∨ duration_s < 0)
  then Raise "energy_j, distance_m, mass_kg, duration_s must be >= 0"
  else if decide (¬ (0 <= risk_prob ∧ risk_prob < 1))
  then Raise "risk_prob must be in [0,1)"
  else
    match beta with
    | Some b =>
        if decide (distance_m > 0 ∧ duration_s > 0 ∧ b > 0) then
          let v := b * C_M_PER_S in
          if decide (v > 0) then
            min_time ←! fdiv distance_m v;
            if decide (duration_s + 1e-9 < min_time)
            then Raise
              "duration_s violates kinematic lower bound distance/velocity"
            else Ok ()
          else Ok ()
        else Ok ()
    | None => Ok ()
    end.

(** Velocity inference, then [float(beta or 0.0)]. *)
Definition resolve_beta (policy : AggregationPolicy)
    (distance_m duration_s : R) (beta : option R) : outcome R :=
  match beta with
  | Some b => Ok b
  | None =>
      if infer_velocity_from_distance_and_duration policy
         && bool_decide (distance_m > 0) && bool_decide (duration_s > 0)
      then
        v ←! fdiv distance_m duration_s;
        Ok (Rmax 0 (Rmin (v / C_M_PER_S) 0.999999))
      else Ok 0
  end.

(** The advisory warnings, in the order they are appended. *)
Definition warnings_of (distance_m duration_s beta risk_prob crew_time_s : R)
  : outcome (list string) :=
  w1 ←! (if decide (distance_m > 0 ∧ duration_s > 0 ∧ beta > 0) then
           let v := beta * C_M_PER_S in
           min_time ←! fdiv distance_m v;
           if decide (duration_s + 1e-9 < min_time)
           then Ok ["duration below kinematic bound distance/velocity"]
           else Ok []
         else Ok []);
  let w2 :=
    if decide (beta >= 0.9)
    then ["high relativistic speed (beta>=0.9)"] else [] in
  w3 ←! (if decide (distance_m > 0 ∧ duration_s > 0) then
           q ←! fdiv distance_m duration_s;
           if decide (q > C_M_PER_S)
           then Ok ["implied superluminal average speed from distance/duration"]
           else Ok []
         else Ok []);
  let w4 :=
    if decide (risk_prob >= 0.2)
    then ["high mission risk (risk_prob>=0.2)"] else [] in
  let w5 :=
    if decide (crew_time_s > duration_s + 1e-9)
    then ["crew_time exceeds earth-frame duration (unexpected)"] else [] in
  Ok (w1 ++ w2 ++ w3 ++ w4 ++ w5).

Definition aggregate_cost_with_breakdown (attrs : gmap string R)
    (policy : AggregationPolicy) : outcome (R * Breakdown) :=
  let energy_j := attr attrs "energy_j" in
  let distance_m := attr attrs "distance_m" in
  let beta := attrs !! "velocity_fraction_c" in
  let mass_kg := attr attrs "mass_kg" in
  let risk_prob := attr attrs "risk_prob" in
  let duration_s := resolve_duration attrs in
  let crew_time_s := attrs !! "crew_time_s" in
  let credits := attr attrs "credits" in
  _ ←! (if strict_invariants policy
        then check_raw energy_j distance_m mass_kg duration_s risk_prob beta
        else Ok ());
  beta ←! resolve_beta policy distance_m duration_s beta;
  _ ←! (if strict_invariants policy && bool_decide (¬ (0 <= beta ∧ beta < 1))
        then Raise "velocity_fraction_c must be in [0,1)" else Ok ());
  g ←! (if decide (beta > 0) then _gamma beta else Ok 1);
  crew_time_s ←!
    match crew_time_s with
    | None => if decide (duration_s > 0) then fdiv duration_s g else Ok 0
    | Some c => Ok c
    end;
  l ←! math_log (Rmax 1e-12 (1 - Rmin (Rmax risk_prob 0) 0.999999));
  let risk_penalty := - l in
  let e_w := energy_weight policy in
  let et_w := earth_time_weight policy in
  let ct_w := crew_time_weight policy in
  let r_w := risk_weight policy in
  let real_world :=
    bool_decide (lower (default "" (mode policy)) = "real_world") in
  let days := if decide (duration_s > 0) then duration_s / 86400 else 0 in
  let et_w := if real_world then et_w * (1 + Rmin days 10 * 0.05) else et_w in
  let ct_w := if real_world then ct_w * (1 + Rmin days 10 * 0.02) else ct_w in
  let r_w :=
    if real_world then r_w * (1 + Rmin (Rmax risk_prob 0) 0.99 * 2)
    else r_w in
  e_term ←! fdiv energy_j (Rmax 1 (energy_scale policy));
  let t_term := et_w * duration_s + ct_w * crew_time_s in
  let r_term := r_w * risk_penalty in
  let cost := energy_weight policy * e_term + t_term + r_term - credits in
  let cost := if allow_negative_edges policy then cost else Rmax 0 cost in
  warnings ←! warnings_of distance_m duration_s beta risk_prob crew_time_s;
  Ok (cost,
      mkBreakdown energy_j distance_m beta g duration_s crew_time_s
        risk_prob risk_penalty credits
        (mkWeights e_w et_w ct_w r_w)
        (mkTerms e_term t_term r_term)
        warnings).

Definition aggregate_cost (attrs : gmap string R)
    (policy : AggregationPolicy) : outcome R :=
  '(cost, _) ←! aggregate_cost_with_breakdown attrs policy;
  Ok cost.

End Spec.

(** ** logger.py: redaction of the logged fields *)

Module Logger.

(** The values [_redact] tells apart: dictionaries, here with string
    keys and in insertion order, lists, and everything else, which is
    returned as it is.  Keys are lowered with [Spec.lower], that is
    [str.lower] on ASCII strings. *)
#[local] Set Warnings "-register-all".
Inductive value : Type :=
| VNone
| VBool (b : bool)
| VNum (x : Q)
| VStr (s : string)
| VList (items : list value)
| VDict (items : list (string * value)).

Definition REDACT_KEYS : gset string :=
  list_to_set
    ["token"; "auth"; "authorization"; "password"; "secret"; "api_key"].

Fixpoint _redact (obj : value) : value :=
  match obj with
  | VDict items =>
      VDict ((λ kv, (kv.1, if decide (Spec.lower kv.1 ∈ REDACT_KEYS)
                           then VStr "<redacted>" else _redact kv.2))
               <$> items)
  | VList items => VList (_redact <$> items)
  | _ => obj
  end.

End Logger.

(** ** cli.py: the [plan] command *)

Module Cli.
Import Fsm Graph Planner.

(** [cmd_plan], on the arguments as [argparse] and [parse_edges] deliver
    them: the states, the initial state, the edges as triples of a
    source, a target and a weight, the three waypoints and the flag.
    Transitions are added without an event.  The call of [log_event],
    which writes the result out and does not change it, is left out. *)
Definition cmd_plan (sts : list string) (init : string)
    (edges : list (string * string * Q)) (abc : string * string * string)
    (forbid_negative_edges : bool) : outcome Z :=
  fsm ←! new (Event := string) sts init;
  fsm ←! for_each (λ fsm '(src, dst, w),
                     let r := add_transition fsm src dst None w in
                     _ ←! r.1; Ok r.2) edges fsm;
  let '(A, B, C) := abc in
  res ←! plan_cycle_ABC fsm A B C forbid_negative_edges;
  Ok (if ok res then 0 else 2)%Z.

End Cli.

(** * Vocabulary of the statements *)

Module SpecDefs.
Import Spec.
Local Open Scope R_scope.

(** The velocity fraction once resolved, in the words of the
    specification: the explicit value if present; else, if inference is
    enabled and distance and duration are positive,
    [min(distance/duration/c, 0.999999)] clamped to be non-negative; else
    zero. *)
Definition resolved_velocity (attrs : gmap string R)
    (policy : AggregationPolicy) : R :=
  match attrs !! "velocity_fraction_c" with
  | Some b => b
  | None =>
      if infer_velocity_from_distance_and_duration policy then
        if decide (attr attrs "distance_m" > 0 ∧ resolve_duration attrs > 0)
        then Rmax 0 (Rmin (attr attrs "distance_m" / resolve_duration attrs
                             / 299792458) 0.999999)
        else 0
      else 0
  end.

(** The scalar cost of the specification, on the quantities and the
    effective weights reported in the breakdown. *)
Definition scalar_cost (policy : AggregationPolicy) (bd : Breakdown) : R :=
  energy_weight policy * (bd_energy_j bd / Rmax 1 (energy_scale policy))
  + ew_earth_time (bd_effective_weights bd) * bd_duration_s bd
  + ew_crew_time (bd_effective_weights bd) * bd_crew_time_s bd
  + ew_risk (bd_effective_weights bd) * bd_risk_penalty bd
  - bd_credits bd.


End SpecDefs.

Module GraphDefs.
Import Graph.
Section walks.
Context {Node : Type} `{Countable Node}.

(** A walk from [s]: its edges, the last one first. *)
Inductive walk (E : list (Edge Node)) (s : Node)
  : list (Edge Node) → Node → Prop :=
| walk_nil : walk E s [] s
| walk_snoc p e : walk E s p (u e) → e ∈ E → walk E s (e :: p) (v e).

(** The sum of the weights, added in the order the walk is taken. *)
Fixpoint weight (p : list (Edge Node)) : Q :=
  match p with
  | [] => 0
  | e :: p => weight p + w e
  end.

(** The nodes a walk from [s] visits, the last one first. *)
Definition verts (s : Node) (p : list (Edge Node)) : list Node :=
  (v <$> p) ++ [s].

(** A cycle, entered at most once at each of its nodes, whose weights
    sum to a negative value. *)
Definition negative_cycle (E : list (Edge Node)) : Prop :=
  ∃ x c, walk E x c x ∧ NoDup (v <$> c) ∧ (weight c < 0)%Q.

(** No closed walk has a negative weight. *)
Definition no_negative_walk (E : list (Edge Node)) : Prop :=
  ∀ x c, walk E x c x → (0 <= weight c)%Q.

(** The edges join nodes of the node list. *)
Definition closed_under (nodes : list Node) (E : list (Edge Node)) : Prop :=
  ∀ e, e ∈ E → u e ∈ nodes ∧ v e ∈ nodes.

(** [dist.get(n, inf)] *)
Definition dist_of (dist : gmap Node ext) (n : Node) : ext :=
  default inf (dist !! n).

(** [pred.get(n)] *)
Definition pred_of (pred : gmap Node (option Node)) (n : Node)
  : option Node :=
  mjoin (pred !! n).

(** Distances as a function of the node, sources as a predicate. *)

(** No edge can be relaxed any more. *)
Definition stable (E : list (Edge Node)) (d : Node → ext) : Prop :=
  ∀ e, e ∈ E → le (d (v e)) (add (d (u e)) (w e)).

(** Every finite distance is the weight of a walk from a source. *)
Definition achieved (E : list (Edge Node)) (Src : Node → Prop)
    (d : Node → ext) : Prop :=
  ∀ x q, d x = Fin q → ∃ s p, Src s ∧ walk E s p x ∧ (weight p == q)%Q.

(** No walk of at most [k] edges from a source is lighter than the
    distance of its end. *)
Definition bounded_by (E : list (Edge Node)) (Src : Node → Prop) (k : nat)
    (d : Node → ext) : Prop :=
  ∀ s p x, Src s → walk E s p x → length p ≤ k → le (d x) (Fin (weight p)).

(** No walk from a source is lighter than the distance of its end. *)
Definition lower_bound (E : list (Edge Node)) (Src : Node → Prop)
    (d : Node → ext) : Prop :=
  ∀ s p x, Src s → walk E s p x → le (d x) (Fin (weight p)).

(** One pass over the edges: no distance grows, and every edge has been
    relaxed against the distance its tail had before the pass. *)
Definition pass_of (E : list (Edge Node)) (d d' : Node → ext) : Prop :=
  (∀ x, le (d' x) (d x)) ∧
  ∀ e, e ∈ E → le (d' (v e)) (add (d (u e)) (w e)).

(** The dictionary of [detect_any_negative_cycle]: the distances of the
    real nodes, an edge of the graph among the edges of the detector, the
    dictionary before the first pass, and a pass. *)
Definition view (D : gmap (option Node) ext) : Node → ext :=
  λ n, dist_get D (Some n).

Definition lift (e : Edge Node) : Edge (option Node) :=
  mkEdge (Some (u e)) (Some (v e)) (w e).

Definition init_dist (nodes : list Node) : gmap (option Node) ext :=
  foldl (λ m n, <[Some n := Fin 0]> m) ∅ nodes.

Definition one_pass (nodes : list Node) (E : list (Edge Node))
    (D : gmap (option Node) ext) : gmap (option Node) ext :=
  foldl relax_get D (super_edges nodes E).

(** [x]'s predecessor link leads to [y]. *)
Definition pstep (pred : gmap Node (option Node)) (x y : Node) : Prop :=
  pred_of pred x = Some y.

(** What the loop of [bellman_ford] from [s] keeps true on a graph in
    which no closed walk is negative. *)
Record bf_inv (nodes : list Node) (E : list (Edge Node)) (s : Node)
    (dist : gmap Node ext) (pred : gmap Node (option Node)) : Prop := {
  inv_keys : ∀ n, n ∈ nodes → is_Some (dist !! n);
  inv_achieved : achieved E (eq s) (dist_of dist);
  inv_source : dist !! s = Some (Fin 0) ∧ pred_of pred s = None;
  inv_pred : ∀ x y, pstep pred x y →
    ∃ e dy dx, e ∈ E ∧ u e = y ∧ v e = x ∧
      dist !! y = Some (Fin dy) ∧ dist !! x = Some (Fin dx) ∧
      (dy + w e <= dx)%Q;
  inv_has_pred : ∀ x q,
    dist !! x = Some (Fin q) → x ≠ s → is_Some (pred_of pred x);
  inv_acyclic : ∀ x, ¬ tc (pstep pred) x x;
}.

End walks.
End GraphDefs.

(** Dijkstra's algorithm, the reference for graphs without negative
    weights: the nodes that are not settled yet are kept in a list; the
    one of least finite distance is settled next and the edges that leave
    it are relaxed. *)
Module Dijkstra.
Import Graph GraphDefs.
Section dijkstra.
Context {Node : Type} `{Countable Node}.

(** The node of [todo] of least distance, if one has a finite distance. *)
Fixpoint pick_min (dist : gmap Node ext) (todo : list Node) : option Node :=
  match todo with
  | [] => None
  | n :: rest =>
      match pick_min dist rest with
      | None => if is_inf (dist_of dist n) then None else Some n
      | Some m =>
          if ltb (dist_of dist n) (dist_of dist m) then Some n else Some m
      end
  end.

(** Relaxing an edge if it leaves [n]. *)
Definition relax_out (n : Node) (dist : gmap Node ext) (e : Edge Node)
  : gmap Node ext :=
  if decide (u e = n) then
    if ltb (add (dist_of dist n) (w e)) (dist_of dist (v e))
    then <[v e := add (dist_of dist n) (w e)]> dist
    else dist
  else dist.

Fixpoint dijkstra_loop (fuel : nat) (E : list (Edge Node))
    (todo : list Node) (dist : gmap Node ext) : gmap Node ext :=
  match fuel with
  | O => dist
  | S fuel' =>
      match pick_min dist todo with
      | None => dist
      | Some n =>
          dijkstra_loop fuel' E (filter (λ m, m ≠ n) todo)
            (foldl (relax_out n) dist E)
      end
  end.

(** Every turn settles a node, so [length nodes] turns suffice. *)
Definition dijkstra (nodes : list Node) (E : list (Edge Node)) (s : Node)
  : gmap Node ext :=
  dijkstra_loop (length nodes) E nodes
    (<[s := Fin 0]> (dict_of_keys nodes inf)).

(** What the loop keeps true, [todo] being the nodes not settled yet. *)
Record dijkstra_inv (nodes : list Node) (E : list (Edge Node)) (s : Node)
    (todo : list Node) (dist : gmap Node ext) : Prop := {
  dj_achieved : achieved E (eq s) (dist_of dist);
  dj_source : le (dist_of dist s) (Fin 0);
  dj_settled : ∀ e, e ∈ E → u e ∉ todo →
    le (dist_of dist (v e)) (add (dist_of dist (u e)) (w e));
  dj_order : ∀ x y, x ∈ nodes → x ∉ todo → y ∈ todo →
    le (dist_of dist x) (dist_of dist y);
}.

End dijkstra.
End Dijkstra.

Module PlannerDefs.
Import Fsm Graph Planner GraphDefs.
Section planner.
Context {State Event : Type} `{Countable State} `{EqDecision Event}.

(** The node list and the edge list [plan_cycle_ABC] works on. *)
Definition plan_nodes (fsm : FSM State Event) : list State :=
  elements (states fsm).

Definition plan_edges (fsm : FSM State Event) (forbid_negative_edges : bool)
  : list (Edge State) :=
  if forbid_negative_edges
  then filter (λ e, (0 <= w e)%Q) (_edges_from_fsm fsm)
  else _edges_from_fsm fsm.

(** A leg, as [plan_cycle_ABC] runs it. *)
Definition leg (fsm : FSM State Event) (forbid_negative_edges : bool)
    (a b : State) : outcome (list State * ext * string) :=
  _shortest_path (plan_nodes fsm) (plan_edges fsm forbid_negative_edges) a b.

(** The result of a failed plan. *)
Definition failure (reason : string) : PlanResult State :=
  mkPlanResult [] inf false reason.

End planner.
End PlannerDefs.

(** The graphs of the test suite: three states, [A] initial, and a list of
    weighted transitions added in order. *)
Module Scenarios.
Import Fsm Graph Planner Spec.

Definition abc : FSM string string :=
  mkFSM (list_to_set ["A"; "B"; "C"]) "A" [].

Definition graph_of (l : list (string * string * Q)) : FSM string string :=
  foldl (λ fsm '(a, b, x), (add_transition fsm a b None x).2) abc l.

Definition simple_cycle : FSM string string :=
  graph_of [("A", "B", 1%Q); ("B", "C", 2%Q); ("C", "A", 3%Q)].

Definition negative_edge : FSM string string :=
  graph_of [("A", "B", (-1)%Q); ("B", "C", 2%Q); ("C", "A", 3%Q)].

Definition negative_loop : FSM string string :=
  graph_of [("A", "B", 1%Q); ("B", "A", (-3)%Q); ("B", "C", 1%Q);
            ("C", "A", 1%Q)].

(** Scenario: a trip whose credits outweigh its costs. *)
Definition credited_trip : gmap string R :=
  <["energy_j" := 1e9%R]> (<["duration_s" := 10%R]>
    (<["risk_prob" := 0%R]> {["credits" := 100%R]})).

(** Scenario: a trip with a velocity above the speed of light. *)
Definition superluminal_trip : gmap string R :=
  {["velocity_fraction_c" := 1.2%R]}.


(** [needle in hay] *)
Fixpoint contains (needle hay : string) : bool :=
  String.prefix needle hay ||
  match hay with
  | EmptyString => false
  | String _ rest => contains needle rest
  end.

End Scenarios.

(** Vocabulary of the further properties. *)
Module PathDefs.
Import Graph GraphDefs.
Section paths.
Context {Node : Type} `{Countable Node}.


(** The nodes [chain] follow [c] along predecessor links. *)
Inductive linked (pred : gmap Node (option Node)) : Node → list Node → Prop :=
| linked_nil c : linked pred c []
| linked_cons c c' chain :
    pstep pred c c' → linked pred c' chain → linked pred c (c' :: chain).

End paths.
End PathDefs.

Module LoggerDefs.
Import Logger.

(** A value in which every sensitive key, at any depth of dictionaries
    and lists, holds the placeholder. *)
#[local] Set Warnings "-register-all".
Inductive clean : value → Prop :=
| clean_none : clean VNone
| clean_bool b : clean (VBool b)
| clean_num x : clean (VNum x)
| clean_str s : clean (VStr s)
| clean_list items : Forall clean items → clean (VList items)
| clean_dict items :
    Forall (λ kv, (Spec.lower kv.1 ∈ REDACT_KEYS → kv.2 = VStr "<redacted>")
                  ∧ (Spec.lower kv.1 ∉ REDACT_KEYS → clean kv.2)) items →
    clean (VDict items).


(** A scenario: a record with a secret below a list. *)
Definition login_event : value :=
  VDict [("user", VStr "ada");
         ("Password", VStr "hunter2");
         ("sessions", VList [VDict [("API_KEY", VStr "k1"); ("n", VNum 1)]])].

End LoggerDefs.

Module CliDefs.
Import Fsm.

(** The graph [cmd_plan] has built when every call of [add_transition]
    has returned. *)
Definition graph_of_args (sts : list string) (init : string)
    (edges : list (string * string * Q)) : FSM string string :=
  foldl (λ fsm '(src, dst, w), (add_transition fsm src dst None w).2)
    (mkFSM (list_to_set sts) init []) edges.

End CliDefs.

(** * Proofs *)

(** ** Ordered dictionaries *)

Module OrderedDictFacts.
Import OrderedDict.
Section odict.
Context {K V : Type} `{EqDecision K}.
Implicit Types (k : K) (v : V) (d : list (K * V)).

Lemma get_set_eq k v d : get k (set k v d) = Some v.
Proof.
  induction d as [|[k' v'] r IH]; simpl.
  - by rewrite decide_True.
  - destruct (decide (k = k')) as [->|Hne]; simpl.
    + by rewrite decide_True.
    + by rewrite decide_False.
Qed.

Lemma get_set_ne k k' v d : k ≠ k' → get k' (set k v d) = get k' d.
Proof.
  intros Hne. induction d as [|[k0 v0] r IH]; simpl.
  - by rewrite decide_False.
  - destruct (decide (k = k0)) as [->|Hne0]; simpl.
    + by rewrite !decide_False.
    + destruct (decide (k' = k0)); [done | apply IH].
Qed.

Lemma keys_set k v d :
  (set k v d).*1 = if decide (k ∈ d.*1) then d.*1 else d.*1 ++ [k].
Proof.
  induction d as [|[k' v'] r IH].
  - rewrite decide_False; [done | apply not_elem_of_nil].
  - cbn [set]. rewrite !fmap_cons. cbn [fst].
    destruct (decide (k = k')) as [->|Hne].
    + rewrite decide_True; [done | apply elem_of_cons; by left].
    + rewrite fmap_cons, IH. cbn [fst].
      destruct (decide (k ∈ r.*1)) as [Hin|Hnin].
      * rewrite decide_True; [done | apply elem_of_cons; by right].
      * rewrite decide_False; [done |].
        intros [?|?]%elem_of_cons; done.
Qed.

Lemma NoDup_keys_set k v d : NoDup d.*1 → NoDup (set k v d).*1.
Proof.
  intros Hnd. rewrite keys_set. case_decide; [done |].
  apply NoDup_app. split_and!; [done | | apply NoDup_singleton].
  intros x Hx ->%list_elem_of_singleton. done.
Qed.

Lemma elem_of_get k v d : get k d = Some v → (k, v) ∈ d.
Proof.
  induction d as [|[k' v'] r IH]; simpl; [done |].
  destruct (decide (k = k')) as [->|Hne].
  - intros [= ->]. apply elem_of_cons. by left.
  - intros ?. apply elem_of_cons. right. auto.
Qed.

Lemma get_elem_of k v d : NoDup d.*1 → (k, v) ∈ d → get k d = Some v.
Proof.
  induction d as [|[k' v'] r IH]; simpl.
  - by intros _ ?%elem_of_nil.
  - intros [Hnin Hnd]%NoDup_cons [Heq|Hin]%elem_of_cons.
    + injection Heq as -> ->. by rewrite decide_True.
    + rewrite decide_False; [by apply IH |].
      intros ->. apply Hnin. apply list_elem_of_fmap. by exists (k', v).
Qed.

Lemma elem_of_set k v k' v' d :
  NoDup d.*1 →
  (k', v') ∈ set k v d ↔ (k' = k ∧ v' = v) ∨ (k' ≠ k ∧ (k', v') ∈ d).
Proof.
  intros Hnd. pose proof (NoDup_keys_set k v d Hnd) as Hnd'. split.
  - intros Hin%(get_elem_of _ _ _ Hnd').
    destruct (decide (k' = k)) as [->|Hne].
    + rewrite get_set_eq in Hin. left. by injection Hin as ->.
    + rewrite get_set_ne in Hin by done. right.
      split; [done | by apply elem_of_get].
  - intros [[-> ->]|[Hne Hin]]; apply elem_of_get.
    + apply get_set_eq.
    + rewrite get_set_ne by done. by apply get_elem_of.
Qed.

End odict.
End OrderedDictFacts.

(** ** The graph store *)

Module FsmFacts.
Import OrderedDict OrderedDictFacts Fsm.
Section fsm.
Context {State Event : Type} `{Countable State} `{EqDecision Event}.
Implicit Types (fsm : FSM State Event) (t : Transition State Event).

Lemma elem_of_transitions fsm t :
  t ∈ transitions fsm ↔
  ∃ b, ((src t, event t), b) ∈ _edges fsm ∧ (dst t, weight t) ∈ b.
Proof.
  unfold transitions. rewrite list_elem_of_bind. split.
  - intros ([[s e] b] & Hin & Hkb). apply list_elem_of_bind in Hin.
    destruct Hin as ([d w] & Hin & Hdw).
    apply list_elem_of_singleton in Hin. subst t. simpl. eauto.
  - intros (b & Hkb & Hdw). exists ((src t, event t), b).
    split; [| done]. apply list_elem_of_bind.
    exists (dst t, weight t). split; [| done].
    destruct t. simpl. apply list_elem_of_singleton. done.
Qed.

Lemma transitions_edge_weight fsm t :
  keys_unique fsm →
  t ∈ transitions fsm ↔
  edge_weight fsm (src t) (event t) (dst t) = Some (weight t).
Proof.
  intros [Hk Hb]. rewrite elem_of_transitions. unfold edge_weight. split.
  - intros (b & Hkb & Hdw).
    rewrite (get_elem_of _ _ _ Hk Hkb). simpl.
    apply get_elem_of; eauto.
  - intros Hget. destruct (get _ (_edges fsm)) as [b|] eqn:Hg; [| done].
    simpl in Hget. exists b. split; by apply elem_of_get.
Qed.

Lemma new_keys_unique sts init fsm : new sts init = Ok fsm → keys_unique fsm.
Proof.
  unfold new. case_decide; [done |]. intros [= <-]. split; simpl.
  - apply NoDup_nil_2.
  - by intros k b ?%elem_of_nil.
Qed.

Lemma add_transition_keys_unique fsm s d e w :
  keys_unique fsm → keys_unique (add_transition fsm s d e w).2.
Proof.
  intros [Hk Hb]. unfold add_transition. case_decide; [done |]. simpl.
  split; simpl.
  - by apply NoDup_keys_set.
  - intros k b [[-> ->]|[Hne Hin]]%elem_of_set; [| | done]; [| by eauto].
    apply NoDup_keys_set.
    destruct (get (s, e) (_edges fsm)) as [b0|] eqn:Hg; simpl.
    + apply elem_of_get in Hg. eauto.
    + apply NoDup_nil_2.
Qed.

Lemma built_keys_unique fsm : built fsm → keys_unique fsm.
Proof.
  induction 1 as [sts init fsm Hnew | fsm s d e w _ IH].
  - by eapply new_keys_unique.
  - by apply add_transition_keys_unique.
Qed.

Lemma add_transition_raise fsm s d e w :
  s ∉ states fsm ∨ d ∉ states fsm →
  add_transition fsm s d e w =
    (Raise "src/dst must be existing states", fsm).
Proof. intros Hor. unfold add_transition. by rewrite decide_True. Qed.

Lemma add_transition_ok fsm s d e w :
  s ∈ states fsm → d ∈ states fsm →
  add_transition fsm s d e w =
    (Ok (), mkFSM (states fsm) (initial fsm)
              (set (s, e) (set d w (neighbors fsm s e)) (_edges fsm))).
Proof.
  intros Hs Hd. unfold add_transition. rewrite decide_False; [done |].
  intros [?|?]; done.
Qed.

(** Writing the key [(s, e, d)] replaces its weight and nothing else. *)
Lemma edge_weight_add_eq fsm s d e w :
  s ∈ states fsm → d ∈ states fsm →
  edge_weight (add_transition fsm s d e w).2 s e d = Some w.
Proof.
  intros Hs Hd. rewrite add_transition_ok by done. unfold edge_weight.
  simpl. rewrite get_set_eq. simpl. apply get_set_eq.
Qed.

Lemma edge_weight_add_ne fsm s d e w s' e' d' :
  (s', e', d') ≠ (s, e, d) →
  edge_weight (add_transition fsm s d e w).2 s' e' d' =
  edge_weight fsm s' e' d'.
Proof.
  intros Hne. unfold add_transition. case_decide; [done |].
  unfold edge_weight. simpl.
  destruct (decide ((s, e) = (s', e'))) as [[= <- <-]|Hk].
  - rewrite get_set_eq. simpl. rewrite get_set_ne by congruence.
    by destruct (get (s, e) (_edges fsm)).
  - by rewrite get_set_ne.
Qed.

Lemma transitions_add fsm s d e w t :
  keys_unique fsm → s ∈ states fsm → d ∈ states fsm →
  t ∈ transitions (add_transition fsm s d e w).2 ↔
  t = mkTransition s e d w ∨
  (t ∈ transitions fsm ∧ (src t, event t, dst t) ≠ (s, e, d)).
Proof.
  intros Hu Hs Hd.
  rewrite !transitions_edge_weight
    by auto using add_transition_keys_unique.
  destruct (decide ((src t, event t, dst t) = (s, e, d))) as [Heq|Hne].
  - injection Heq as Hs' He' Hd'. rewrite Hs', He', Hd'.
    rewrite edge_weight_add_eq by done. split.
    + intros [= Hw]. left. destruct t; simpl in *; congruence.
    + intros [->|[_ Hne]]; [done |]. by destruct Hne.
  - rewrite edge_weight_add_ne by done. split; [by right |].
    intros [->|[? _]]; [by destruct Hne | done].
Qed.

Lemma new_edges_closed sts init fsm :
  new sts init = Ok fsm → edges_closed fsm.
Proof.
  unfold new. case_decide; [done |]. intros [= <-] t Ht.
  by apply elem_of_nil in Ht.
Qed.

Lemma add_transition_edges_closed fsm s d e w :
  keys_unique fsm → edges_closed fsm →
  edges_closed (add_transition fsm s d e w).2.
Proof.
  intros Hu Hc.
  destruct (decide (s ∈ states fsm ∧ d ∈ states fsm)) as [[Hs Hd]|Hn].
  - intros t Ht. apply transitions_add in Ht as [->|[Ht _]]; try done.
    + rewrite add_transition_ok by done. done.
    + rewrite add_transition_ok by done. by apply Hc.
  - rewrite add_transition_raise; [done |].
    apply not_and_l in Hn. done.
Qed.

Lemma built_edges_closed fsm : built fsm → edges_closed fsm.
Proof.
  induction 1 as [sts init fsm Hnew | fsm s d e w Hb IH].
  - by eapply new_edges_closed.
  - apply add_transition_edges_closed; [by apply built_keys_unique | done].
Qed.

(** C7. Every edge stored in a graph built through the constructor and
    [add_transition] joins registered states.  A call with an
    unregistered endpoint raises and leaves the graph as it was; a call
    with registered endpoints stores the new weight under the key
    [(src, event, dst)], in place of the weight stored before if there
    was one, and keeps every other edge. *)
Theorem add_transition_closed_last_write_wins :
  (∀ fsm, built fsm → edges_closed fsm) ∧
  (∀ fsm s d e w, built fsm →
     (s ∉ states fsm ∨ d ∉ states fsm →
        add_transition fsm s d e w =
          (Raise "src/dst must be existing states", fsm)) ∧
     (s ∈ states fsm → d ∈ states fsm →
        ∃ fsm', add_transition fsm s d e w = (Ok (), fsm') ∧
          states fsm' = states fsm ∧
          edge_weight fsm' s e d = Some w ∧
          ∀ t, t ∈ transitions fsm' ↔
               t = mkTransition s e d w ∨
               (t ∈ transitions fsm ∧
                (src t, event t, dst t) ≠ (s, e, d)))).
Proof.
  split; [apply built_edges_closed |].
  intros fsm s d e w Hb. split; [apply add_transition_raise |].
  intros Hs Hd. eexists. split; [by apply add_transition_ok |].
  split; [done |]. split.
  - pose proof (edge_weight_add_eq fsm s d e w Hs Hd) as Hw.
    by rewrite add_transition_ok in Hw.
  - intros t.
    pose proof (transitions_add fsm s d e w t
                  (built_keys_unique _ Hb) Hs Hd) as Ht.
    by rewrite add_transition_ok in Ht.
Qed.

End fsm.
End FsmFacts.

(** ** The cost aggregator *)

Module SpecFacts.
Import Spec SpecDefs.
Local Open Scope R_scope.

Lemma fdiv_ok x y : y ≠ 0 → fdiv x y = Ok (x / y).
Proof. intros Hy. unfold fdiv. by rewrite decide_False. Qed.

Lemma math_log_ok x : 0 < x → math_log x = Ok (ln x).
Proof. intros Hx. unfold math_log. rewrite decide_False; [done | lra]. Qed.

Lemma gamma_raise beta :
  beta < 0 ∨ beta >= 1 →
  _gamma beta = Raise "velocity_fraction_c must be in [0,1)".
Proof. intros Hb. unfold _gamma. by rewrite decide_True. Qed.

Lemma gamma_ok beta :
  0 <= beta < 1 →
  _gamma beta = Ok (1 / sqrt (1 - beta * beta)) ∧
  0 < 1 / sqrt (1 - beta * beta).
Proof.
  intros Hb. assert (0 < 1 - beta * beta) as Hpos by nra.
  pose proof (sqrt_lt_R0 _ Hpos) as Hs.
  split.
  - unfold _gamma, math_sqrt. rewrite !decide_False by lra. simpl.
    apply fdiv_ok. lra.
  - apply Rdiv_lt_0_compat; lra.
Qed.

Lemma log_arg_pos x : 0 < Rmax 1e-12 x.
Proof. pose proof (Rmax_l 1e-12 x). lra. Qed.

Lemma scale_nonzero x : Rmax 1 x ≠ 0.
Proof. pose proof (Rmax_l 1 x). lra. Qed.

Lemma warnings_of_ok distance_m duration_s beta risk_prob crew_time_s :
  ∃ ws, warnings_of distance_m duration_s beta risk_prob crew_time_s = Ok ws.
Proof.
  unfold warnings_of.
  destruct (decide (distance_m > 0 ∧ duration_s > 0 ∧ beta > 0))
    as [(Hd & Ht & Hb)|_]; simpl.
  - rewrite fdiv_ok by (unfold C_M_PER_S; nra). simpl.
    rewrite (decide_True (P := distance_m > 0 ∧ duration_s > 0)) by done.
    rewrite fdiv_ok by lra. simpl.
    repeat case_decide; simpl; eauto.
  - destruct (decide (distance_m > 0 ∧ duration_s > 0)) as [[Hd Ht]|_]; simpl.
    + rewrite fdiv_ok by lra. simpl. repeat case_decide; simpl; eauto.
    + eauto.
Qed.

Lemma resolve_beta_ok attrs policy :
  resolve_beta policy (attr attrs "distance_m") (resolve_duration attrs)
    (attrs !! "velocity_fraction_c") = Ok (resolved_velocity attrs policy).
Proof.
  unfold resolve_beta, resolved_velocity.
  destruct (attrs !! "velocity_fraction_c") as [b|]; [done |].
  destruct (infer_velocity_from_distance_and_duration policy); simpl; [| done].
  destruct (decide (attr attrs "distance_m" > 0 ∧ resolve_duration attrs > 0))
    as [[Hd Ht]|Hn].
  - rewrite !bool_decide_eq_true_2 by done. simpl.
    rewrite fdiv_ok by lra. done.
  - apply not_and_l in Hn as [Hn|Hn].
    + rewrite (bool_decide_eq_false_2 _ Hn). done.
    + rewrite (bool_decide_eq_false_2 _ Hn).
      by rewrite andb_false_r.
Qed.

Lemma check_raw_raises energy_j distance_m mass_kg duration_s risk_prob beta :
  raises (check_raw energy_j distance_m mass_kg duration_s risk_prob beta) ↔
  energy_j < 0 ∨ distance_m < 0 ∨ mass_kg < 0 ∨ duration_s < 0 ∨
  ¬ (0 <= risk_prob ∧ risk_prob < 1) ∨
  ∃ b, beta = Some b ∧ distance_m > 0 ∧ duration_s > 0 ∧ b > 0 ∧
       duration_s + 1e-9 < distance_m / (b * 299792458).
Proof.
  unfold check_raw.
  destruct (decide (energy_j < 0 ∨ distance_m < 0 ∨ mass_kg < 0
                    ∨ duration_s < 0)) as [Hneg|Hneg]; simpl.
  { split; [intros _ | done]. destruct Hneg as [?|[?|[?|?]]]; auto. }
  destruct (decide (¬ (0 <= risk_prob ∧ risk_prob < 1))) as [Hr|Hr]; simpl.
  { split; [intros _ | done]. auto 6. }
  assert (∀ P : Prop, energy_j < 0 ∨ distance_m < 0 ∨ mass_kg < 0
            ∨ duration_s < 0 ∨ ¬ (0 <= risk_prob ∧ risk_prob < 1) ∨ P → P)
    as Hrest.
  { intros P [?|[?|[?|[?|[?|?]]]]]; try done; destruct Hneg; auto. }
  destruct beta as [b|]; simpl.
  - destruct (decide (distance_m > 0 ∧ duration_s > 0 ∧ b > 0))
      as [(Hd & Ht & Hb)|Hn]; simpl.
    + rewrite decide_True by (unfold C_M_PER_S; lra).
      rewrite fdiv_ok by (unfold C_M_PER_S; lra). simpl.
      unfold C_M_PER_S. case_decide as Hk; simpl.
      * split; [intros _ | done]. do 5 right. exists b. done.
      * split; [done |]. intros (b' & [= <-] & _ & _ & _ & Hlt)%Hrest. done.
    + split; [done |].
      intros (b' & [= <-] & ? & ? & ? & _)%Hrest. apply Hn. done.
  - split; [done |]. by intros (b' & [=] & _)%Hrest.
Qed.

Lemma fdiv_inv x y r : fdiv x y = Ok r → r = x / y.
Proof. unfold fdiv. case_decide; [done |]. by intros [= <-]. Qed.

Lemma math_log_inv x l : math_log x = Ok l → l = ln x.
Proof. unfold math_log. case_decide; [done |]. by intros [= <-]. Qed.

Lemma gamma_inv beta g :
  _gamma beta = Ok g → g = 1 / sqrt (1 - beta * beta).
Proof.
  unfold _gamma, math_sqrt. case_decide; [done |].
  case_decide; [done |]. cbn [obind]. apply fdiv_inv.
Qed.

(** Steps through the part of the aggregator that follows the checks. *)
Ltac run_tail :=
  repeat first
    [ rewrite math_log_ok by apply log_arg_pos
    | rewrite fdiv_ok by (first [apply scale_nonzero | lra])
    | progress simpl
    | match goal with
      | |- context [warnings_of ?a ?b ?c ?d ?e] =>
          let ws := fresh "ws" in
          let Hws := fresh "Hws" in
          destruct (warnings_of_ok a b c d e) as [ws Hws]; rewrite Hws
      end ].

(** Once the strict checks are passed, or skipped, and the velocity
    fraction is below one, nothing further raises. *)
Lemma aggregate_returns attrs policy :
  (strict_invariants policy = true →
   ¬ raises (check_raw (attr attrs "energy_j") (attr attrs "distance_m")
               (attr attrs "mass_kg") (resolve_duration attrs)
               (attr attrs "risk_prob") (attrs !! "velocity_fraction_c"))) →
  (strict_invariants policy = true → 0 <= resolved_velocity attrs policy) →
  resolved_velocity attrs policy < 1 →
  ∃ r, aggregate_cost_with_breakdown attrs policy = Ok r.
Proof.
  intros Hraw Hlo Hhi. unfold aggregate_cost_with_breakdown.
  assert ((if strict_invariants policy
           then check_raw (attr attrs "energy_j") (attr attrs "distance_m")
                  (attr attrs "mass_kg") (resolve_duration attrs)
                  (attr attrs "risk_prob") (attrs !! "velocity_fraction_c")
           else Ok ()) = Ok ()) as ->.
  { destruct (strict_invariants policy); [| done].
    destruct (check_raw _ _ _ _ _ _) as [[]|msg]; [done |].
    by destruct Hraw. }
  simpl. rewrite resolve_beta_ok. simpl.
  assert (strict_invariants policy
          && bool_decide (¬ (0 <= resolved_velocity attrs policy
                             ∧ resolved_velocity attrs policy < 1)) = false)
    as ->.
  { destruct (strict_invariants policy); [| done]. simpl.
    apply bool_decide_eq_false_2. intros Hn. apply Hn. auto. }
  simpl. clear Hraw Hlo. revert Hhi.
  generalize (resolved_velocity attrs policy). intros beta Hhi.
  destruct (decide (beta > 0)) as [Hb|Hb].
  - destruct (gamma_ok beta) as [-> Hg]; [lra |]. simpl.
    destruct (attrs !! "crew_time_s") as [c|]; [| case_decide];
      run_tail; eauto.
  - simpl. destruct (attrs !! "crew_time_s") as [c|]; [| case_decide];
      run_tail; eauto.
Qed.



(** C4. Whenever the aggregator returns, the cost is the scalar cost of
    the specification on the reported quantities and effective weights,
    floored at zero when the policy disallows negative edge weights; the
    three terms of the breakdown are the unfloored ones.  The reported
    energy, duration and credits are the resolved inputs, the crew time is
    the given one or the duration divided by the relativistic factor, the
    risk penalty is the logarithmic one, the energy weight is the
    policy's, and the time and risk weights are the policy's, scaled in
    [real_world] mode. *)
Theorem cost_is_weighted_sum attrs policy cost bd :
  aggregate_cost_with_breakdown attrs policy = Ok (cost, bd) →
  cost = (if allow_negative_edges policy then scalar_cost policy bd
          else Rmax 0 (scalar_cost policy bd)) ∧
  energy_term (bd_terms bd)
    = bd_energy_j bd / Rmax 1 (energy_scale policy) ∧
  time_term (bd_terms bd)
    = ew_earth_time (bd_effective_weights bd) * bd_duration_s bd
      + ew_crew_time (bd_effective_weights bd) * bd_crew_time_s bd ∧
  risk_term (bd_terms bd)
    = ew_risk (bd_effective_weights bd) * bd_risk_penalty bd ∧
  scalar_cost policy bd
    = energy_weight policy * energy_term (bd_terms bd)
      + time_term (bd_terms bd) + risk_term (bd_terms bd) - bd_credits bd ∧
  bd_energy_j bd = attr attrs "energy_j" ∧
  bd_duration_s bd = resolve_duration attrs ∧
  bd_credits bd = attr attrs "credits" ∧
  bd_velocity_fraction_c bd = resolved_velocity attrs policy ∧
  bd_gamma bd =
    (if decide (resolved_velocity attrs policy > 0)
     then 1 / sqrt (1 - resolved_velocity attrs policy
                          * resolved_velocity attrs policy)
     else 1) ∧
  bd_crew_time_s bd =
    match attrs !! "crew_time_s" with
    | Some c => c
    | None => if decide (resolve_duration attrs > 0)
              then resolve_duration attrs / bd_gamma bd else 0
    end ∧
  bd_risk_penalty bd =
    - ln (Rmax 1e-12 (1 - Rmin (Rmax (attr attrs "risk_prob") 0) 0.999999)) ∧
  bd_effective_weights bd =
    (let days := if decide (resolve_duration attrs > 0)
                 then resolve_duration attrs / 86400 else 0 in
     let risk := Rmin (Rmax (attr attrs "risk_prob") 0) 0.99 in
     if bool_decide (lower (default "" (mode policy)) = "real_world")
     then mkWeights (energy_weight policy)
            (earth_time_weight policy * (1 + Rmin days 10 * 0.05))
            (crew_time_weight policy * (1 + Rmin days 10 * 0.02))
            (risk_weight policy * (1 + risk * 2))
     else mkWeights (energy_weight policy) (earth_time_weight policy)
            (crew_time_weight policy) (risk_weight policy)).
Proof.
  unfold aggregate_cost_with_breakdown. rewrite resolve_beta_ok.
  intros Hagg.
  repeat match type of Hagg with
  | obind ?m _ = Ok _ =>
      let x := fresh "x" in
      let E := fresh "E" in
      destruct m as [x|] eqn:E; simpl in Hagg; [| discriminate]
  end.
  injection Hagg as <- <-. unfold scalar_cost. simpl.
  match goal with H : fdiv (attr attrs "energy_j") _ = Ok _ |- _ =>
    apply fdiv_inv in H; rewrite H end.
  match goal with H : math_log _ = Ok _ |- _ =>
    apply math_log_inv in H; rewrite H end.
  split_and!; try done.
  - destruct (allow_negative_edges policy); [lra | f_equal; lra].
  - lra.
  - destruct (decide (resolved_velocity attrs policy > 0));
      [by apply gamma_inv | congruence].
  - destruct (attrs !! "crew_time_s"); [congruence |].
    destruct (decide (resolve_duration attrs > 0)); [| congruence].
    match goal with H : fdiv (resolve_duration attrs) _ = Ok _ |- _ =>
      by apply fdiv_inv in H end.
  - destruct (bool_decide (lower _ = _)); reflexivity.
Qed.

End SpecFacts.

(** ** Extended numbers *)

Module FloatFacts.
Import Float.

Lemma ltb_true x y :
  ltb x y = true ↔
  ∃ a, x = Fin a ∧ (y = Inf ∨ ∃ b, y = Fin b ∧ (a < b)%Q).
Proof.
  split.
  - destruct x as [a|], y as [b|]; simpl; try done.
    + intros Hlt%bool_decide_eq_true. eauto 6.
    + eauto.
  - intros (a & -> & [->|(b & -> & Hlt)]); simpl; [done |].
    by apply bool_decide_eq_true.
Qed.

Lemma ltb_false x y : ltb x y = false ↔ le y x.
Proof.
  destruct x as [a|], y as [b|]; simpl; split; try done.
  - intros Hlt%bool_decide_eq_false. by apply Qnot_lt_le.
  - intros Hle. apply bool_decide_eq_false. by apply Qle_not_lt.
Qed.

Lemma le_refl x : le x x.
Proof. destruct x; simpl; [apply Qle_refl | done]. Qed.

Lemma le_trans x y z : le x y → le y z → le x z.
Proof.
  destruct x, y, z; simpl; try done. intros. lra.
Qed.

Lemma add_mono x y q : le x y → le (add x q) (add y q).
Proof. destruct x, y; simpl; try done. intros. lra. Qed.

Lemma eqv_le x y : le x y → le y x → eqv x y.
Proof. destruct x, y; simpl; try done. intros. lra. Qed.

End FloatFacts.

(** ** Walks, cycles and potentials *)

Module WalkFacts.
Import Graph GraphDefs FloatFacts.
Section walks.
Context {Node : Type} `{Countable Node}.
Implicit Types (E p c : list (Edge Node)) (s x y : Node).

Lemma weight_app p1 p2 : (weight (p2 ++ p1) == weight p2 + weight p1)%Q.
Proof. induction p2 as [|e p2 IH]; simpl; lra. Qed.

Lemma walk_app E s p1 x p2 y :
  walk E s p1 x → walk E x p2 y → walk E s (p2 ++ p1) y.
Proof.
  intros H1 H2. induction H2 as [|p2 e _ IH He]; simpl; [done |].
  by constructor.
Qed.

Lemma walk_verts_closed nodes E s p x :
  closed_under nodes E → s ∈ nodes → walk E s p x →
  ∀ y, y ∈ verts s p → y ∈ nodes.
Proof.
  intros Hcl Hs Hw y. unfold verts. rewrite elem_of_app, list_elem_of_fmap.
  intros [(e & -> & He)|Hy]; [| by apply list_elem_of_singleton in Hy as ->].
  assert (e ∈ E) as HeE; [| by apply Hcl].
  induction Hw as [|p e' _ IH He']; [by apply elem_of_nil in He |].
  apply elem_of_cons in He as [->|He]; auto.
Qed.

Lemma walk_end_verts E s p x : walk E s p x → x ∈ verts s p.
Proof.
  unfold verts. destruct 1; simpl; [apply list_elem_of_singleton|]; [done |].
  apply elem_of_cons. by left.
Qed.

(** A walk can be cut at any node it visits. *)
Lemma walk_split E s p x y :
  walk E s p x → y ∈ verts s p →
  ∃ p1 p2, p = p2 ++ p1 ∧ walk E s p1 y ∧ walk E y p2 x.
Proof.
  intros Hw. induction Hw as [|p e Hw IH He]; intros Hy.
  - apply list_elem_of_singleton in Hy as ->.
    exists [], []. split_and!; [done | constructor..].
  - destruct (decide (y = v e)) as [->|Hne].
    + exists (e :: p), []. split_and!; [done | by constructor | constructor].
    + unfold verts in Hy. rewrite fmap_cons in Hy. simpl in Hy.
      apply elem_of_cons in Hy as [?|Hy]; [done |].
      destruct (IH Hy) as (p1 & p2 & -> & H1 & H2).
      exists p1, (e :: p2). split_and!; [done | done | by constructor].
Qed.

(** A potential that no edge relaxes bounds every walk. *)
Lemma potential_walk E (h : Node → Q) s p x :
  (∀ e, e ∈ E → (h (v e) <= h (u e) + w e)%Q) →
  walk E s p x → (h x <= h s + weight p)%Q.
Proof.
  intros Hpot Hw. induction Hw as [|p e _ IH He]; simpl; [lra |].
  specialize (Hpot e He). lra.
Qed.

Lemma potential_no_negative_walk E (h : Node → Q) :
  (∀ e, e ∈ E → (h (v e) <= h (u e) + w e)%Q) → no_negative_walk E.
Proof.
  intros Hpot x c Hc. pose proof (potential_walk E h x c x Hpot Hc). lra.
Qed.

(** Every walk either runs through a negative cycle or can be replaced
    by a walk that is at most as heavy and visits no node twice. *)
Lemma walk_simplify E s p x :
  walk E s p x →
  negative_cycle E ∨
  ∃ p', walk E s p' x ∧ NoDup (verts s p') ∧ (weight p' <= weight p)%Q.
Proof.
  intros Hw. induction Hw as [|p e Hw IH He].
  - right. exists []. split_and!; [constructor | | simpl; lra].
    apply NoDup_singleton.
  - destruct IH as [?|(p' & Hw' & Hnd & Hle)]; [by left |].
    destruct (decide (v e ∈ verts s p')) as [Hin|Hnin].
    + destruct (walk_split _ _ _ _ _ Hw' Hin) as (p1 & p2 & -> & H1 & H2).
      assert (walk E (v e) (e :: p2) (v e)) as Hc by by constructor.
      destruct (decide (weight (e :: p2) < 0)%Q) as [Hneg|Hpos].
      * left. exists (v e), (e :: p2). split_and!; [done | | done].
        unfold verts in Hnd. rewrite fmap_app, <-app_assoc in Hnd.
        apply NoDup_app in Hnd as (Hnd2 & Hdisj & _).
        rewrite fmap_cons. apply NoDup_cons. split; [| done].
        intros Hv. apply (Hdisj _ Hv). by apply walk_end_verts in H1.
      * right. exists p1. split_and!; [done | |].
        -- unfold verts in *. rewrite fmap_app, <-app_assoc in Hnd.
           by apply NoDup_app in Hnd as (_ & _ & ?).
        -- simpl in *. rewrite weight_app in Hle. lra.
    + right. exists (e :: p'). split_and!.
      * by constructor.
      * unfold verts. rewrite fmap_cons. simpl. by apply NoDup_cons.
      * simpl. lra.
Qed.


Lemma negative_cycle_walk E :
  negative_cycle E → ¬ no_negative_walk E.
Proof.
  intros (x & c & Hc & _ & Hneg) Hno. specialize (Hno x c Hc). lra.
Qed.

(** A walk that visits no node twice has fewer edges than there are
    nodes. *)
Lemma simple_walk_length nodes E s p x :
  closed_under nodes E → s ∈ nodes → walk E s p x →
  NoDup (verts s p) → length p ≤ length nodes - 1.
Proof.
  intros Hcl Hs Hw Hnd.
  pose proof (walk_verts_closed _ _ _ _ _ Hcl Hs Hw) as Hin.
  pose proof (submseteq_length _ _ (NoDup_submseteq _ _ Hnd Hin)) as Hlen.
  unfold verts in Hlen. rewrite length_app, length_fmap in Hlen.
  simpl in Hlen. lia.
Qed.

(** Without a negative cycle every walk has a replacement, at most as
    heavy, of fewer edges than there are nodes. *)
Lemma walk_shorten nodes E s p x :
  closed_under nodes E → s ∈ nodes → ¬ negative_cycle E →
  walk E s p x →
  ∃ p', walk E s p' x ∧ length p' ≤ length nodes - 1 ∧
        (weight p' <= weight p)%Q.
Proof.
  intros Hcl Hs Hno Hw.
  destruct (walk_simplify _ _ _ _ Hw) as [?|(p' & Hw' & Hnd & Hle)]; [done |].
  exists p'. split_and!; [done | | done].
  by eapply simple_walk_length.
Qed.

End walks.
End WalkFacts.

(** ** Relaxation, whatever the dictionary *)

Module RelaxFacts.
Import Graph GraphDefs FloatFacts WalkFacts.
Section relax.
Context {Node : Type} `{Countable Node}.
Variable E : list (Edge Node).
Variable Src : Node → Prop.
Implicit Types (d : Node → ext) (p : list (Edge Node)).

Lemma stable_lower_bound d :
  stable E d → (∀ s, Src s → le (d s) (Fin 0)) → lower_bound E Src d.
Proof.
  intros Hst Hsrc s p x Hs Hw. induction Hw as [|p e _ IH He].
  - by apply Hsrc.
  - eapply le_trans; [by apply Hst |].
    apply (add_mono _ _ (w e)) in IH. done.
Qed.

Lemma lower_bound_bounded d k : lower_bound E Src d → bounded_by E Src k d.
Proof. intros Hlb s p x Hs Hw _. by eapply Hlb. Qed.

Lemma pass_bounded d d' k :
  bounded_by E Src k d → pass_of E d d' → bounded_by E Src (S k) d'.
Proof.
  intros Hb [Hle Hrel] s p x Hs Hw Hlen.
  destruct Hw as [|p e Hw He].
  - eapply le_trans; [apply Hle |]. apply (Hb s []); [done | constructor |].
    simpl. lia.
  - eapply le_trans; [by apply Hrel |].
    simpl in Hlen.
    change (Fin (weight (e :: p))) with (add (Fin (weight p)) (w e)).
    apply add_mono, (Hb s p); [done | done | lia].
Qed.

Lemma bounded_lower_bound nodes d :
  closed_under nodes E → (∀ s, Src s → s ∈ nodes) → ¬ negative_cycle E →
  bounded_by E Src (length nodes - 1) d → lower_bound E Src d.
Proof.
  intros Hcl Hsrc Hno Hb s p x Hs Hw.
  destruct (walk_shorten nodes E s p x) as (p' & Hw' & Hlen & Hle); auto.
  eapply le_trans; [by eapply Hb |]. done.
Qed.

Lemma lower_bound_stable d :
  achieved E Src d → lower_bound E Src d → stable E d.
Proof.
  intros Hach Hlb e He.
  destruct (d (u e)) as [q|] eqn:Hu; [| by destruct (d (v e))].
  destruct (Hach _ _ Hu) as (s & p & Hs & Hw & Hq).
  pose proof (Hlb s (e :: p) (v e) Hs (walk_snoc _ _ _ _ Hw He)) as Hle.
  simpl in *. destruct (d (v e)); [| done]. simpl in *. lra.
Qed.

(** Two distance functions that are both achieved and both lower bounds
    agree. *)
Lemma achieved_lower_bound_le d1 d2 x :
  achieved E Src d1 → lower_bound E Src d2 → le (d2 x) (d1 x).
Proof.
  intros Hach Hlb. destruct (d1 x) as [q|] eqn:Hx; [| by destruct (d2 x)].
  destruct (Hach _ _ Hx) as (s & p & Hs & Hw & Hq).
  pose proof (Hlb s p x Hs Hw) as Hle.
  destruct (d2 x); simpl in *; [lra | done].
Qed.

Lemma shortest_unique d1 d2 x :
  achieved E Src d1 → lower_bound E Src d1 →
  achieved E Src d2 → lower_bound E Src d2 →
  eqv (d1 x) (d2 x).
Proof.
  intros. apply eqv_le; by apply achieved_lower_bound_le.
Qed.

End relax.
End RelaxFacts.

(** ** The negative-cycle detector *)

Module DetectFacts.
Import Graph GraphDefs FloatFacts WalkFacts RelaxFacts.
Section detect.
Context {Node : Type} `{Countable Node}.
Variable nodes : list Node.
Variable E : list (Edge Node).
Hypothesis E_closed : closed_under nodes E.
Implicit Types (D : gmap (option Node) ext) (e : Edge (option Node)).

Lemma detect_unfold :
  detect_any_negative_cycle nodes E =
  let D := Nat.iter (length nodes - 1) (one_pass nodes E) (init_dist nodes) in
  existsb (λ e, ltb (add (dist_get D (u e)) (w e)) (dist_get D (v e)))
    (super_edges nodes E).
Proof. reflexivity. Qed.

Lemma elem_of_super_edges e :
  e ∈ super_edges nodes E ↔
  (∃ ed, ed ∈ E ∧ e = lift ed) ∨ (∃ n, n ∈ nodes ∧ e = mkEdge None (Some n) 0).
Proof.
  unfold super_edges. rewrite elem_of_app, !list_elem_of_fmap.
  split; (intros [(x & ? & ?)|(x & ? & ?)]; [left | right]; eauto).
Qed.

Lemma init_dist_lookup_gen (l : list Node) D k :
  foldl (λ m n, <[Some n := Fin 0]> m) D l !! k =
  match k with
  | Some n => if decide (n ∈ l) then Some (Fin 0) else D !! k
  | None => D !! k
  end.
Proof.
  revert D. induction l as [|a l IH]; intros D; cbn [foldl].
  - destruct k; [| done]. rewrite decide_False; [done | apply not_elem_of_nil].
  - rewrite IH. destruct k as [n|]; [| by rewrite lookup_insert_ne].
    destruct (decide (n ∈ l)) as [Hin|Hnin].
    + rewrite decide_True; [done | by apply elem_of_cons; right].
    + destruct (decide (n = a)) as [->|Hne].
      * rewrite lookup_insert_eq.
        rewrite decide_True; [done | by apply elem_of_cons; left].
      * rewrite lookup_insert_ne by congruence.
        rewrite decide_False; [done |].
        intros [?|?]%elem_of_cons; done.
Qed.

Lemma init_dist_view n :
  view (init_dist nodes) n = if decide (n ∈ nodes) then Fin 0 else Inf.
Proof.
  unfold view, dist_get, init_dist. rewrite init_dist_lookup_gen.
  by case_decide.
Qed.


(** One relaxation. *)
Lemma relax_get_le D e k : le (dist_get (relax_get D e) k) (dist_get D k).
Proof.
  unfold relax_get.
  destruct (ltb _ _) eqn:Hlt; [| apply le_refl].
  unfold dist_get at 1. destruct (decide (v e = k)) as [<-|Hne].
  - rewrite lookup_insert_eq. simpl.
    apply ltb_true in Hlt as (a & -> & [->|(b & -> & Hlt)]); simpl; [done |].
    lra.
  - rewrite lookup_insert_ne by done. apply le_refl.
Qed.



(** A pass. *)
Lemma pass_get_le (l : list (Edge (option Node))) D k :
  le (dist_get (foldl relax_get D l) k) (dist_get D k).
Proof.
  revert D. induction l as [|e l IH]; intros D; simpl; [apply le_refl |].
  eapply le_trans; [apply IH | apply relax_get_le].
Qed.






Lemma iter_le k n :
  le (view (Nat.iter k (one_pass nodes E) (init_dist nodes)) n)
     (view (init_dist nodes) n).
Proof.
  induction k as [|k IH]; simpl; [apply le_refl |].
  eapply le_trans; [apply pass_get_le | apply IH].
Qed.

Lemma iter_finite k n :
  n ∈ nodes →
  ∃ q, view (Nat.iter k (one_pass nodes E) (init_dist nodes)) n = Fin q.
Proof.
  intros Hn. pose proof (iter_le k n) as Hle.
  rewrite init_dist_view, decide_True in Hle by done.
  destruct (view _ n) as [q|]; [eauto | done].
Qed.

(** Soundness: when the closing pass finds nothing to relax, the final
    distances are a potential, and no closed walk is negative. *)
Lemma detect_false_no_negative_walk :
  detect_any_negative_cycle nodes E = false → no_negative_walk E.
Proof.
  rewrite detect_unfold. set (D := Nat.iter _ _ _). intros Hex.
  apply (potential_no_negative_walk E
           (λ n, match view D n with Fin q => q | Inf => 0%Q end)).
  intros ed Hed.
  assert (ltb (add (dist_get D (u (lift ed))) (w (lift ed)))
              (dist_get D (v (lift ed))) = false) as Hlt.
  { destruct (ltb _ _) eqn:Hlt; [| done].
    rewrite <-Hex. symmetry. apply existsb_exists. exists (lift ed).
    split; [| done]. apply list_elem_of_In, elem_of_super_edges. eauto. }
  apply ltb_false in Hlt. simpl in Hlt.
  destruct (E_closed ed Hed) as [Hu Hv].
  destruct (iter_finite (length nodes - 1) _ Hu) as [qu Hqu].
  destruct (iter_finite (length nodes - 1) _ Hv) as [qv Hqv].
  fold D in Hqu, Hqv. rewrite Hqu, Hqv.
  unfold view in Hqu, Hqv. rewrite Hqu, Hqv in Hlt. done.
Qed.







End detect.


End DetectFacts.

(** ** Bellman-Ford *)

Module BellmanFordFacts.
Import Graph GraphDefs FloatFacts WalkFacts RelaxFacts.
Section pred.
Context {Node : Type} `{Countable Node}.
Implicit Types (pred : gmap Node (option Node)) (x y a b : Node).

Lemma pstep_insert pred a b x y :
  pstep (<[a := Some b]> pred) x y ↔
  (x = a ∧ y = b) ∨ (x ≠ a ∧ pstep pred x y).
Proof.
  unfold pstep, pred_of. destruct (decide (x = a)) as [->|Hne].
  - rewrite lookup_insert_eq. simpl. split.
    + intros [= ->]. by left.
    + intros [[_ ->]|[? _]]; done.
  - rewrite lookup_insert_ne by done. split; [by right |].
    intros [[? _]|[_ ?]]; done.
Qed.

(** A chain of links after [a] is redirected to [b] either avoids [a] or
    reaches [a] along old links and goes on from [b]. *)
Lemma rtc_insert pred a b x y :
  rtc (pstep (<[a := Some b]> pred)) x y →
  rtc (pstep pred) x y ∨
  (rtc (pstep pred) x a ∧ rtc (pstep (<[a := Some b]> pred)) b y).
Proof.
  induction 1 as [x|x z y Hstep Hrtc IH]; [by left |].
  apply pstep_insert in Hstep as [[-> ->]|[Hne Hstep]].
  - right. split; [apply rtc_refl | done].
  - destruct IH as [IH|[IH1 IH2]].
    + left. by eapply rtc_l.
    + right. split; [by eapply rtc_l | done].
Qed.

Lemma tc_first_step (R : relation Node) x z :
  tc R x z → ∃ y, R x y ∧ rtc R y z.
Proof.
  destruct 1 as [x z HR|x y z HR Htc].
  - exists z. split; [done | apply rtc_refl].
  - exists y. split; [done | by apply tc_rtc].
Qed.

(** A cycle of links that appears when [a] is redirected to [b] runs
    through the new link: [a] was reachable from [b]. *)
Lemma tc_insert_cycle pred a b x :
  (∀ z, ¬ tc (pstep pred) z z) →
  tc (pstep (<[a := Some b]> pred)) x x → rtc (pstep pred) b a.
Proof.
  intros Hacyc (y & Hstep & Hrtc)%tc_first_step.
  apply pstep_insert in Hstep as [[-> ->]|[Hne Hstep]].
  - apply rtc_insert in Hrtc as [?|[? _]]; done.
  - apply rtc_insert in Hrtc as [Hrtc|[Hya Hbx]].
    + destruct (Hacyc x). by eapply tc_rtc_r; [apply tc_once |].
    + apply rtc_insert in Hbx as [Hbx|[? _]]; [| done].
      eapply rtc_trans; [done |]. by eapply rtc_l.
Qed.

End pred.

Section bellman_ford.
Context {Node : Type} `{Countable Node}.
Variable nodes : list Node.
Variable E : list (Edge Node).
Variable s : Node.
Hypothesis E_closed : closed_under nodes E.
Hypothesis s_node : s ∈ nodes.
Hypothesis E_safe : no_negative_walk E.
Implicit Types (dist : gmap Node ext) (pred : gmap Node (option Node)).

Lemma dist_of_Fin dist x q : dist_of dist x = Fin q ↔ dist !! x = Some (Fin q).
Proof.
  unfold dist_of. destruct (dist !! x) as [[q'|]|]; simpl; split;
    intros; simplify_eq; done.
Qed.

Lemma getitem_Some dist x d : dist !! x = Some d → getitem dist x = Ok d.
Proof. unfold getitem. by intros ->. Qed.

(** Along predecessor links distances fall at least by the weights. *)
Lemma chain_weight dist pred x y dx :
  bf_inv nodes E s dist pred →
  rtc (pstep pred) x y → dist !! x = Some (Fin dx) →
  ∃ dy p, dist !! y = Some (Fin dy) ∧ walk E y p x ∧ (dy + weight p <= dx)%Q.
Proof.
  intros Hinv Hrtc. revert dx.
  induction Hrtc as [x|x z y Hstep Hrtc IH]; intros dx Hx.
  - exists dx, []. split_and!; [done | constructor | simpl; lra].
  - destruct (inv_pred _ _ _ _ _ Hinv _ _ Hstep)
      as (e & dz & dx' & He & <- & <- & Hz & Hx' & Hle).
    rewrite Hx in Hx'. injection Hx' as <-.
    destruct (IH _ Hz) as (dy & p & Hy & Hw & Hle').
    exists dy, ([e] ++ p). split_and!; [done | |].
    + eapply walk_app; [done |].
      apply (walk_snoc E (u e) [] e); [constructor | done].
    + rewrite weight_app. simpl. lra.
Qed.

(** One turn of the inner loop: no [KeyError], the invariant is kept,
    distances do not grow, the edge is relaxed, and [changed] records
    whether anything was written. *)
Lemma relax_spec dist pred c e :
  bf_inv nodes E s dist pred → e ∈ E →
  ∃ dist' pred' c',
    relax (dist, pred, c) e = Ok (dist', pred', c') ∧
    bf_inv nodes E s dist' pred' ∧
    (∀ x, le (dist_of dist' x) (dist_of dist x)) ∧
    le (dist_of dist' (v e)) (add (dist_of dist (u e)) (w e)) ∧
    (c' = false → c = false ∧ dist' = dist ∧ pred' = pred) ∧
    (c = true → c' = true).
Proof.
  intros Hinv He. destruct (E_closed e He) as [Hu Hv].
  destruct (inv_keys _ _ _ _ _ Hinv _ Hu) as [du Hdu].
  destruct (inv_keys _ _ _ _ _ Hinv _ Hv) as [dv Hdv].
  unfold relax. rewrite (getitem_Some _ _ _ Hdu), (getitem_Some _ _ _ Hdv).
  simpl. destruct (ltb (add du (w e)) dv) eqn:Hlt.
  2:{ exists dist, pred, c. split_and!; try done.
      - intros x. apply le_refl.
      - apply ltb_false in Hlt. unfold dist_of. by rewrite Hdu, Hdv. }
  apply ltb_true in Hlt as (q & Hq & Hlt).
  destruct du as [a|]; [| done]. simpl in Hq. injection Hq as <-.
  assert (∀ b, dv = Fin b → (a + w e < b)%Q) as Hdv_lt.
  { intros b ->. destruct Hlt as [?|(b' & [= <-] & ?)]; done. }
  destruct (inv_achieved _ _ _ _ _ Hinv (u e) a) as (s' & pu & <- & Hpu & Hwu).
  { by apply dist_of_Fin. }
  assert (u e ≠ v e) as Huv.
  { intros Heq. rewrite <-Heq, Hdu in Hdv. injection Hdv as <-.
    specialize (Hdv_lt a eq_refl).
    assert (walk E (u e) [e] (u e)) as Hc.
    { rewrite Heq at 2. apply walk_snoc; [constructor | done]. }
    apply E_safe in Hc. simpl in Hc. lra. }
  assert (v e ≠ s) as Hvs.
  { intros Heq. destruct (inv_source _ _ _ _ _ Hinv) as [Hs _].
    rewrite Heq, Hs in Hdv. injection Hdv as <-.
    specialize (Hdv_lt _ eq_refl).
    assert (walk E s (e :: pu) s) as Hc.
    { rewrite <-Heq at 2. by apply walk_snoc. }
    apply E_safe in Hc. simpl in Hc. lra. }
  assert (¬ rtc (pstep pred) (u e) (v e)) as Hanc.
  { intros Hrtc.
    destruct (chain_weight _ _ _ _ _ Hinv Hrtc Hdu) as (b & p & Hb & Hp & Hle).
    rewrite Hdv in Hb. injection Hb as ->. specialize (Hdv_lt _ eq_refl).
    assert (walk E (v e) (e :: p) (v e)) as Hc by by apply walk_snoc.
    apply E_safe in Hc. simpl in Hc. lra. }
  eexists _, _, _. split; [done |]. split_and!; try done.
  - split.
    + intros n Hn. destruct (decide (n = v e)) as [->|Hne].
      * rewrite lookup_insert_eq. eauto.
      * rewrite lookup_insert_ne by done. by eapply inv_keys.
    + intros x q. rewrite dist_of_Fin.
      destruct (decide (x = v e)) as [->|Hne].
      * rewrite lookup_insert_eq. intros [= <-].
        exists s, (e :: pu). split_and!; [done | by apply walk_snoc |].
        simpl. lra.
      * rewrite lookup_insert_ne by done. intros Hx.
        apply (inv_achieved _ _ _ _ _ Hinv). by apply dist_of_Fin.
    + destruct (inv_source _ _ _ _ _ Hinv) as [Hs Hps]. split.
      * by rewrite lookup_insert_ne.
      * unfold pred_of. by rewrite lookup_insert_ne.
    + intros x y [[-> ->]|[Hne Hstep]]%pstep_insert.
      * exists e, a, (a + w e)%Q. split_and!; try done.
        -- by rewrite lookup_insert_ne.
        -- by rewrite lookup_insert_eq.
        -- lra.
      * destruct (inv_pred _ _ _ _ _ Hinv _ _ Hstep)
          as (e' & dy & dx & He' & Hu' & Hv' & Hy & Hx & Hle).
        destruct (decide (y = v e)) as [->|Hney].
        -- exists e', (a + w e)%Q, dx. split_and!; try done.
           ++ by rewrite lookup_insert_eq.
           ++ by rewrite lookup_insert_ne.
           ++ rewrite Hdv in Hy. injection Hy as Hy.
              specialize (Hdv_lt _ Hy). lra.
        -- exists e', dy, dx. split_and!; try done.
           ++ by rewrite lookup_insert_ne.
           ++ by rewrite lookup_insert_ne.
    + intros x q Hx Hxs. destruct (decide (x = v e)) as [->|Hne].
      * unfold pred_of. rewrite lookup_insert_eq. simpl. eauto.
      * rewrite lookup_insert_ne in Hx by done.
        unfold pred_of. rewrite lookup_insert_ne by done.
        by eapply inv_has_pred.
    + intros x Htc. apply Hanc. eapply tc_insert_cycle; [| done].
      by eapply inv_acyclic.
  - intros x. unfold dist_of. destruct (decide (x = v e)) as [->|Hne].
    + rewrite lookup_insert_eq, Hdv. simpl.
      destruct dv as [b|]; [| done]. specialize (Hdv_lt _ eq_refl).
      simpl. lra.
    + rewrite lookup_insert_ne by done. apply le_refl.
  - unfold dist_of. rewrite lookup_insert_eq, Hdu. apply le_refl.
Qed.

(** A pass over the edges. *)
Lemma pass_spec (l : list (Edge Node)) dist pred c :
  (∀ e, e ∈ l → e ∈ E) → bf_inv nodes E s dist pred →
  ∃ dist' pred' c',
    for_each relax l (dist, pred, c) = Ok (dist', pred', c') ∧
    bf_inv nodes E s dist' pred' ∧
    pass_of l (dist_of dist) (dist_of dist') ∧
    (c' = false → c = false ∧ dist' = dist ∧ pred' = pred) ∧
    (c = true → c' = true).
Proof.
  revert dist pred c. induction l as [|e l IH]; intros dist pred c Hl Hinv.
  - exists dist, pred, c. split_and!; try done. split.
    + intros x. apply le_refl.
    + by intros e ?%elem_of_nil.
  - destruct (relax_spec dist pred c e Hinv)
      as (dist1 & pred1 & c1 & Hrel & Hinv1 & Hle1 & Hedge1 & Hc1 & Hc1').
    { apply Hl, elem_of_cons. by left. }
    destruct (IH dist1 pred1 c1)
      as (dist' & pred' & c' & Hfor & Hinv' & [Hle' Hedge'] & Hc' & Hc'');
      [by intros e' He'; apply Hl, elem_of_cons; right | done |].
    exists dist', pred', c'. split_and!.
    + cbn [for_each]. rewrite Hrel. done.
    + done.
    + split.
      * intros x. eapply le_trans; [apply Hle' | apply Hle1].
      * intros e' [->|He']%elem_of_cons.
        -- eapply le_trans; [apply Hle' | done].
        -- eapply le_trans; [by apply Hedge' |]. apply add_mono, Hle1.
    + intros Hf. destruct (Hc' Hf) as (-> & -> & ->). by apply Hc1.
    + intros Ht. apply Hc'', Hc1', Ht.
Qed.

Lemma source_le_zero dist pred :
  bf_inv nodes E s dist pred → ∀ s', s = s' → le (dist_of dist s') (Fin 0).
Proof.
  intros Hinv s' <-. destruct (inv_source _ _ _ _ _ Hinv) as [Hs _].
  unfold dist_of. rewrite Hs. simpl. lra.
Qed.

(** The outer loop: after [k] more passes, or fewer if a pass changed
    nothing, walks of [k] more edges are taken into account. *)
Lemma rounds_spec k j dist pred :
  bf_inv nodes E s dist pred → bounded_by E (eq s) j (dist_of dist) →
  ∃ dist' pred',
    relax_rounds k E dist pred = Ok (dist', pred') ∧
    bf_inv nodes E s dist' pred' ∧
    bounded_by E (eq s) (j + k) (dist_of dist').
Proof.
  revert j dist pred. induction k as [|k IH]; intros j dist pred Hinv Hb.
  - exists dist, pred. rewrite Nat.add_0_r. done.
  - destruct (pass_spec E dist pred false)
      as (dist1 & pred1 & c1 & Hfor & Hinv1 & Hpass & Hc1 & _); [done.. |].
    cbn [relax_rounds]. rewrite Hfor. simpl. destruct c1.
    + destruct (IH (S j) dist1 pred1) as (dist' & pred' & Hr & Hinv' & Hb').
      { done. }
      { by eapply pass_bounded. }
      exists dist', pred'. split_and!; [done | done |].
      by replace (j + S k) with (S j + k) by lia.
    + destruct (Hc1 eq_refl) as (_ & -> & ->).
      exists dist, pred. split_and!; [done | done |].
      apply lower_bound_bounded, stable_lower_bound.
      * exact (proj2 Hpass).
      * by eapply source_le_zero.
Qed.

Lemma dict_of_keys_lookup {V} (l : list Node) (x : V) k :
  dict_of_keys l x !! k = if decide (k ∈ l) then Some x else None.
Proof.
  unfold dict_of_keys.
  assert (∀ m : gmap Node V,
    foldl (λ m n, <[n:=x]> m) m l !! k
    = if decide (k ∈ l) then Some x else m !! k) as Hgen.
  { induction l as [|a l IH]; intros m; cbn [foldl].
    - rewrite decide_False; [done | apply not_elem_of_nil].
    - rewrite IH. destruct (decide (k ∈ l)) as [Hin|Hnin].
      + rewrite decide_True; [done | by apply elem_of_cons; right].
      + destruct (decide (k = a)) as [->|Hne].
        * rewrite lookup_insert_eq.
          rewrite decide_True; [done | by apply elem_of_cons; left].
        * rewrite lookup_insert_ne by done.
          rewrite decide_False; [done |].
          intros [?|?]%elem_of_cons; done. }
  rewrite Hgen. by rewrite lookup_empty.
Qed.

(** The dictionaries [bellman_ford] starts from. *)
Lemma init_inv :
  bf_inv nodes E s (<[s := Fin 0]> (dict_of_keys nodes inf))
    (dict_of_keys nodes None) ∧
  bounded_by E (eq s) 0 (dist_of (<[s := Fin 0]> (dict_of_keys nodes inf))).
Proof.
  assert (∀ x q, <[s := Fin 0]> (dict_of_keys nodes inf) !! x = Some (Fin q)
            → x = s ∧ q = 0%Q) as Hfin.
  { intros x q. destruct (decide (x = s)) as [->|Hne].
    - rewrite lookup_insert_eq. by intros [= <-].
    - rewrite lookup_insert_ne, dict_of_keys_lookup by done.
      by case_decide. }
  assert (∀ x y, ¬ pstep (dict_of_keys nodes None) x y) as Hstep.
  { intros x y. unfold pstep, pred_of. rewrite dict_of_keys_lookup.
    by case_decide. }
  split; [split |].
  - intros n Hn. destruct (decide (n = s)) as [->|Hne].
    + rewrite lookup_insert_eq. eauto.
    + rewrite lookup_insert_ne, dict_of_keys_lookup, decide_True by done.
      eauto.
  - intros x q [-> ->]%dist_of_Fin%Hfin.
    exists s, []. split_and!; [done | constructor | done].
  - split; [by rewrite lookup_insert_eq |].
    unfold pred_of. rewrite dict_of_keys_lookup. by case_decide.
  - intros x y Hxy. by apply Hstep in Hxy.
  - by intros x q [-> ->]%Hfin.
  - intros x (y & Hxy & _)%tc_first_step. by apply Hstep in Hxy.
  - intros s' p x <- Hw Hlen. destruct Hw; [| simpl in Hlen; lia].
    unfold dist_of. rewrite lookup_insert_eq. simpl. lra.
Qed.

Lemma still_relaxes_stable (l : list (Edge Node)) dist pred :
  (∀ e, e ∈ l → e ∈ E) → bf_inv nodes E s dist pred →
  stable E (dist_of dist) → still_relaxes dist l = Ok false.
Proof.
  intros Hl Hinv Hst. induction l as [|e l IH]; [done |].
  assert (e ∈ E) as He by (apply Hl, elem_of_cons; by left).
  destruct (E_closed e He) as [Hu Hv].
  destruct (inv_keys _ _ _ _ _ Hinv _ Hu) as [du Hdu].
  destruct (inv_keys _ _ _ _ _ Hinv _ Hv) as [dv Hdv].
  cbn [still_relaxes].
  rewrite (getitem_Some _ _ _ Hdu), (getitem_Some _ _ _ Hdv). simpl.
  specialize (Hst e He). unfold dist_of in Hst. rewrite Hdu, Hdv in Hst.
  apply ltb_false in Hst. simpl in Hst. rewrite Hst.
  apply IH. intros e' He'. apply Hl, elem_of_cons. by right.
Qed.

(** On a graph without a negative closed walk [bellman_ford] returns:
    there is no [KeyError], the flag is [False], the invariant holds and
    the distances are shortest. *)
Lemma bellman_ford_spec :
  ∃ dist pred,
    bellman_ford nodes E s = Ok (dist, pred, false) ∧
    bf_inv nodes E s dist pred ∧
    lower_bound E (eq s) (dist_of dist).
Proof.
  destruct init_inv as [Hinv0 Hb0].
  destruct (rounds_spec (length nodes - 1) 0 _ _ Hinv0 Hb0)
    as (dist & pred & Hr & Hinv & Hb).
  assert (lower_bound E (eq s) (dist_of dist)) as Hlb.
  { apply (bounded_lower_bound E (eq s) nodes); try done.
    - by intros s' <-.
    - by intros Hneg%negative_cycle_walk. }
  exists dist, pred. split_and!; [| done..].
  unfold bellman_ford. rewrite Hr. simpl.
  rewrite (still_relaxes_stable E dist pred); [done | done | done |].
  apply (lower_bound_stable E (eq s)); [| done].
  by eapply inv_achieved.
Qed.

End bellman_ford.

(** A [KeyError] is the fate of an edge that leaves the node list: when
    [bellman_ford] returns, every edge it has looked at joins nodes. *)
Section keys.
Context {Node : Type} `{Countable Node}.
Implicit Types (dist : gmap Node ext) (pred : gmap Node (option Node)).
Implicit Types (E l : list (Edge Node)).

Lemma getitem_Ok dist x d : getitem dist x = Ok d → dist !! x = Some d.
Proof. unfold getitem. destruct (dist !! x); [by intros [= ->] | done]. Qed.

Lemma relax_keys dist pred c e dist' pred' c' :
  relax (dist, pred, c) e = Ok (dist', pred', c') →
  u e ∈ dom dist ∧ v e ∈ dom dist ∧ dom dist' = dom dist.
Proof.
  unfold relax.
  destruct (getitem dist (u e)) as [du|] eqn:Hu; [| done].
  destruct (getitem dist (v e)) as [dv|] eqn:Hv; [| done].
  apply getitem_Ok in Hu, Hv. cbn [obind].
  assert (u e ∈ dom dist ∧ v e ∈ dom dist) as [Hdu Hdv].
  { split; apply elem_of_dom; eauto. }
  destruct (ltb _ _); intros [= <- <- <-]; split_and!; try done.
  rewrite dom_insert_L. apply subseteq_union_1_L.
  by apply singleton_subseteq_l.
Qed.

Lemma pass_keys l dist pred c dist' pred' c' :
  for_each relax l (dist, pred, c) = Ok (dist', pred', c') →
  dom dist' = dom dist ∧ ∀ e, e ∈ l → u e ∈ dom dist ∧ v e ∈ dom dist.
Proof.
  revert dist pred c. induction l as [|e l IH]; intros dist pred c.
  - intros [= <- <- <-]. split; [done | by intros e ?%elem_of_nil].
  - cbn [for_each].
    destruct (relax (dist, pred, c) e) as [[[dist1 pred1] c1]|] eqn:Hrel;
      [| done].
    cbn [obind]. intros Hfor.
    apply relax_keys in Hrel as (Hu & Hv & Hdom).
    apply IH in Hfor as [Hdom' Hl]. split; [congruence |].
    intros e' [->|He']%elem_of_cons; [done |].
    rewrite <-Hdom. by apply Hl.
Qed.

Lemma rounds_keys k E dist pred dist' pred' :
  relax_rounds k E dist pred = Ok (dist', pred') →
  dom dist' = dom dist ∧
  (0 < k → ∀ e, e ∈ E → u e ∈ dom dist ∧ v e ∈ dom dist).
Proof.
  revert dist pred. induction k as [|k IH]; intros dist pred.
  - intros [= <- <-]. split; [done | lia].
  - cbn [relax_rounds].
    destruct (for_each relax E (dist, pred, false))
      as [[[dist1 pred1] c1]|] eqn:Hfor; [| done].
    cbn [obind]. apply pass_keys in Hfor as [Hdom HE]. intros Hr.
    split; [| done]. destruct c1.
    + apply IH in Hr as [Hdom' _]. congruence.
    + injection Hr as <- <-. done.
Qed.

Lemma still_relaxes_keys dist l neg :
  still_relaxes dist l = Ok neg →
  (neg = false ∧ ∀ e, e ∈ l → u e ∈ dom dist ∧ v e ∈ dom dist) ∨
  (neg = true ∧
   ∃ e, e ∈ l ∧ ltb (add (dist_of dist (u e)) (w e)) (dist_of dist (v e))
                 = true ∧ u e ∈ dom dist ∧ v e ∈ dom dist).
Proof.
  induction l as [|e l IH]; cbn [still_relaxes].
  - intros [= <-]. left. split; [done | by intros e ?%elem_of_nil].
  - destruct (getitem dist (u e)) as [du|] eqn:Hu; [| done].
    destruct (getitem dist (v e)) as [dv|] eqn:Hv; [| done].
    apply getitem_Ok in Hu, Hv. cbn [obind].
    assert (u e ∈ dom dist ∧ v e ∈ dom dist) as [Hdu Hdv].
    { split; apply elem_of_dom; eauto. }
    destruct (ltb (add du (w e)) dv) eqn:Hlt.
    + intros [= <-]. right. split; [done |]. exists e.
      split_and!; [apply list_elem_of_here | | done | done].
      unfold dist_of. by rewrite Hu, Hv.
    + intros [[-> Hl]|[-> (e' & He' & Hrest)]]%IH.
      * left. split; [done |]. by intros e' [->|?]%elem_of_cons; auto.
      * right. split; [done |]. exists e'.
        split; [by apply list_elem_of_further | done].
Qed.

Lemma init_dist_dom (nodes : list Node) s :
  s ∈ nodes →
  ∀ n, n ∈ dom (<[s := Fin 0]> (dict_of_keys nodes inf)) ↔ n ∈ nodes.
Proof.
  intros Hs n. rewrite elem_of_dom. destruct (decide (n = s)) as [->|Hne].
  - rewrite lookup_insert_eq. split; [done | eauto].
  - rewrite lookup_insert_ne, dict_of_keys_lookup by done.
    case_decide as Hn; split.
    + done.
    + eauto.
    + intros Hsome. by apply is_Some_None in Hsome.
    + done.
Qed.

(** When [bellman_ford] returns for a source among the nodes, the edges
    join nodes, unless no pass was run and the closing pass stopped at an
    edge that relaxes at the start: a negative loop at the source. *)
Lemma bellman_ford_ok_closed (nodes : list Node) E s res :
  s ∈ nodes → bellman_ford nodes E s = Ok res →
  closed_under nodes E ∨
  ∃ e, e ∈ E ∧ u e = s ∧ v e = s ∧ (w e < 0)%Q ∧ length nodes - 1 = 0.
Proof.
  intros Hs. unfold bellman_ford.
  destruct (relax_rounds _ _ _ _) as [[dist pred]|] eqn:Hr; [| done].
  cbn [obind]. destruct (still_relaxes dist E) as [neg|] eqn:Hneg; [| done].
  intros _. pose proof (rounds_keys _ _ _ _ _ _ Hr) as [Hdom Hpass].
  pose proof (init_dist_dom nodes s Hs) as Hinit.
  destruct (decide (0 < length nodes - 1)) as [Hk|Hk].
  { left. intros e He. rewrite <-!Hinit. by apply Hpass. }
  apply still_relaxes_keys in Hneg
    as [[_ Hl]|[_ (e & He & Hlt & Hu & Hv)]].
  { left. intros e He. rewrite <-!Hinit, <-Hdom. by apply Hl. }
  right. exists e.
  assert (length nodes - 1 = 0) as Hk0 by lia.
  assert (∀ n, n ∈ nodes → n = s) as Honly.
  { intros n Hn. destruct nodes as [|a [|b l]]; simpl in Hk0; [| | lia].
    - by apply elem_of_nil in Hn.
    - apply list_elem_of_singleton in Hn, Hs. congruence. }
  rewrite Hk0 in Hr. 
  rewrite Hdom in Hu, Hv. apply Hinit, Honly in Hu, Hv.
  split_and!; try done.
  assert (dist = <[s := Fin 0]> (dict_of_keys nodes inf)) as Hd.
  { destruct (length nodes - 1) eqn:Hlen; [| lia].
    clear -Hr. cbn in Hr. by injection Hr as <-. }
  rewrite Hu, Hv, Hd in Hlt. unfold dist_of in Hlt.
  rewrite lookup_insert_eq in Hlt. simpl in Hlt.
  apply bool_decide_eq_true in Hlt. lra.
Qed.

End keys.
End BellmanFordFacts.

(** ** The planner *)

Module PlannerFacts.
Import Fsm Graph Planner GraphDefs FloatFacts WalkFacts RelaxFacts.
Import PlannerDefs DetectFacts BellmanFordFacts FsmFacts.

Section shortest_path.
Context {State : Type} `{Countable State}.
Implicit Types (pred : gmap State (option State)) (visited : gset State).
Implicit Types (path chain : list State) (dist : gmap State ext).

(** The reconstruction loop always ends within [walk_fuel] turns. *)
Lemma walk_back_total fuel pred path cur visited :
  (∀ x, x ∈ visited → is_Some (pred !! x)) →
  size pred < fuel + size visited →
  is_Some (walk_back fuel pred path cur visited).
Proof.
  revert path cur visited.
  induction fuel as [|fuel IH]; intros path cur visited Hdom Hsize;
    destruct cur as [c|]; cbn [walk_back]; try done;
    destruct (decide (c ∈ visited)) as [Hin|Hnin]; try done.
  - exfalso. assert (visited ⊆ dom pred) as Hsub.
    { intros x Hx. by apply elem_of_dom, Hdom. }
    apply subseteq_size in Hsub. rewrite size_dom in Hsub. lia.
  - destruct (mjoin (pred !! c)) as [c'|] eqn:Hc; [| by destruct fuel].
    apply IH.
    + intros x [->%elem_of_singleton|Hx]%elem_of_union; [| by apply Hdom].
      destruct (pred !! c); [eauto | done].
    + rewrite size_union, size_singleton by set_solver. lia.
Qed.

Lemma walk_back_enough_fuel pred dst :
  is_Some (walk_back (walk_fuel pred) pred [] (Some dst) ∅).
Proof.
  apply walk_back_total; [by intros x ?%elem_of_empty |].
  unfold walk_fuel. rewrite size_empty. lia.
Qed.

Section reconstruct.
Variable nodes : list State.
Variable E : list (Edge State).
Variable s : State.
Hypothesis E_closed : closed_under nodes E.
Hypothesis s_node : s ∈ nodes.
Hypothesis E_safe : no_negative_walk E.

(** After Bellman-Ford the loop runs from a reached node back to the
    source without meeting a node twice. *)
Lemma walk_back_finished dist pred fuel path c visited q :
  bf_inv nodes E s dist pred →
  dist !! c = Some (Fin q) →
  (∀ x, x ∈ visited → tc (pstep pred) x c) →
  size pred < fuel + size visited →
  ∃ chain,
    walk_back fuel pred path (Some c) visited
      = Some (Finished (path ++ c :: chain)) ∧
    last (c :: chain) = Some s ∧ (c = s → chain = []).
Proof.
  intros Hinv. revert path c visited q.
  induction fuel as [|fuel IH]; intros path c visited q Hc Hvis Hsize;
    cbn [walk_back];
    (destruct (decide (c ∈ visited)) as [Hin|Hnin];
     [by apply Hvis, (inv_acyclic _ _ _ _ _ Hinv) in Hin |]).
  - exfalso. assert (visited ⊆ dom pred) as Hsub.
    { intros x (y & Hxy & _)%Hvis%tc_first_step. apply elem_of_dom.
      unfold pstep, pred_of in Hxy. destruct (pred !! x); [eauto | done]. }
    apply subseteq_size in Hsub. rewrite size_dom in Hsub. lia.
  - destruct (decide (c = s)) as [->|Hne].
    + destruct (inv_source _ _ _ _ _ Hinv) as [_ Hps].
      unfold pred_of in Hps. rewrite Hps. exists [].
      split_and!; [by destruct fuel | done | done].
    + destruct (inv_has_pred _ _ _ _ _ Hinv _ _ Hc Hne) as [c' Hc'].
      destruct (inv_pred _ _ _ _ _ Hinv _ _ Hc')
        as (e & dy & dx & _ & _ & _ & Hy & _ & _).
      unfold pred_of in Hc'. rewrite Hc'.
      destruct (IH (path ++ [c]) c' ({[c]} ∪ visited) dy Hy)
        as (chain & Hwb & Hlast & _).
      * intros x [->%elem_of_singleton|Hx]%elem_of_union.
        -- by apply tc_once.
        -- eapply tc_r; [by apply Hvis | done].
      * rewrite size_union, size_singleton by set_solver. lia.
      * exists (c' :: chain). rewrite Hwb, <-app_assoc. done.
Qed.

(** [_shortest_path] on a graph without a negative closed walk: either
    the target is not reached, or a path from the source to the target
    is returned with the distance of the target. *)
Lemma shortest_path_spec t :
  ∃ dist pred,
    bellman_ford nodes E s = Ok (dist, pred, false) ∧
    bf_inv nodes E s dist pred ∧
    lower_bound E (eq s) (dist_of dist) ∧
    match dist_of dist t with
    | Inf => _shortest_path nodes E s t = Ok ([], inf, "unreachable")
    | Fin q =>
        ∃ path, _shortest_path nodes E s t = Ok (path, Fin q, "") ∧
                head path = Some s ∧ last path = Some t ∧
                (t = s → path = [s])
    end.
Proof.
  destruct (bellman_ford_spec nodes E s) as (dist & pred & Hbf & Hinv & Hlb);
    try done.
  exists dist, pred. split_and!; try done.
  unfold _shortest_path. rewrite Hbf. cbn [obind].
  change (default inf (dist !! t)) with (dist_of dist t).
  destruct (dist_of dist t) as [q|] eqn:Ht; cbn [is_inf]; [| done].
  apply dist_of_Fin in Ht.
  destruct (walk_back_finished dist pred (walk_fuel pred) [] t ∅ q)
    as (chain & -> & Hlast & Hts); try done.
  { unfold walk_fuel. rewrite size_empty. lia. }
  rewrite app_nil_l.
  destruct (reverse (t :: chain)) as [|p0 path] eqn:Hrev.
  { apply (f_equal length) in Hrev. rewrite length_reverse in Hrev. done. }
  assert (head (reverse (t :: chain)) = Some s) as Hhead.
  { by rewrite head_reverse. }
  rewrite Hrev in Hhead. injection Hhead as ->.
  rewrite decide_False by (by intros ?).
  rewrite (getitem_Some _ _ _ Ht). cbn [obind].
  exists (s :: path). split_and!; try done.
  - rewrite <-Hrev, last_reverse. done.
  - intros Heq. rewrite (Hts Heq) in Hrev. rewrite <-Hrev. by rewrite Heq.
Qed.

End reconstruct.
End shortest_path.

Section plan.
Context {State Event : Type} `{Countable State} `{EqDecision Event}.
Implicit Types (fsm : FSM State Event) (A B C : State).



Lemma plan_edges_subset fsm forbid e :
  e ∈ plan_edges fsm forbid → e ∈ _edges_from_fsm fsm.
Proof.
  unfold plan_edges. destruct forbid; [| done].
  by intros [_ ?]%list_elem_of_filter.
Qed.

Lemma plan_edges_closed fsm forbid :
  edges_closed fsm → closed_under (plan_nodes fsm) (plan_edges fsm forbid).
Proof.
  intros Hcl e He%plan_edges_subset. unfold _edges_from_fsm in He.
  apply list_elem_of_fmap in He as (t & -> & Ht). simpl.
  unfold plan_nodes. rewrite !elem_of_elements. by apply Hcl.
Qed.

Lemma plan_unregistered fsm A B C forbid :
  A ∉ states fsm ∨ B ∉ states fsm ∨ C ∉ states fsm →
  plan_cycle_ABC fsm A B C forbid = Ok (failure "A/B/C not in FSM states").
Proof. intros Hun. unfold plan_cycle_ABC. by rewrite decide_True. Qed.

Lemma plan_registered fsm A B C forbid :
  A ∈ states fsm → B ∈ states fsm → C ∈ states fsm →
  plan_cycle_ABC fsm A B C forbid =
  if detect_any_negative_cycle (plan_nodes fsm) (plan_edges fsm forbid)
  then Ok (failure "negative cycle exists in graph")
  else
    '(p1, c1, r1) ←! leg fsm forbid A B;
    if is_empty p1 then Ok (failure ("A->B planning failed: " +:+ r1))
    else
    '(p2, c2, r2) ←! leg fsm forbid B C;
    if is_empty p2 then Ok (failure ("B->C planning failed: " +:+ r2))
    else
    '(p3, c3, r3) ←! leg fsm forbid C A;
    if is_empty p3 then Ok (failure ("C->A planning failed: " +:+ r3))
    else Ok (mkPlanResult (p1 ++ drop 1 p2 ++ drop 1 p3)
               (plus (plus c1 c2) c3) true "ok").
Proof.
  intros HA HB HC. unfold plan_cycle_ABC.
  rewrite decide_False; [done |]. intros [?|[?|?]]; done.
Qed.

(** A leg between registered states of a graph that passed the
    negative-cycle check returns; it either fails as unreachable or
    gives a path from its source to its target. *)
Lemma leg_spec fsm forbid a b :
  edges_closed fsm → a ∈ states fsm →
  detect_any_negative_cycle (plan_nodes fsm) (plan_edges fsm forbid) = false →
  leg fsm forbid a b = Ok ([], inf, "unreachable") ∨
  ∃ path q, leg fsm forbid a b = Ok (path, Fin q, "") ∧
            head path = Some a ∧ last path = Some b ∧
            (b = a → path = [a] ∧ q = 0%Q).
Proof.
  intros Hcl Ha Hdet. apply (plan_edges_closed _ forbid) in Hcl.
  assert (a ∈ plan_nodes fsm) as Ha' by by apply elem_of_elements.
  pose proof (detect_false_no_negative_walk _ _ Hcl Hdet) as Hsafe.
  destruct (shortest_path_spec _ _ a Hcl Ha' Hsafe b)
    as (dist & pred & _ & Hinv & _ & Hsp).
  destruct (dist_of dist b) as [q|] eqn:Hb; [| by left].
  right. destruct Hsp as (path & Hsp & Hhead & Hlast & Hsame).
  exists path, q. split_and!; try done.
  intros ->. split; [by apply Hsame |].
  apply dist_of_Fin in Hb.
  destruct (inv_source _ _ _ _ _ Hinv) as [Hs _]. congruence.
Qed.






End plan.
End PlannerFacts.

(** ** Bellman-Ford against Dijkstra *)

Module DijkstraFacts.
Import Graph GraphDefs Dijkstra FloatFacts WalkFacts RelaxFacts.
Import BellmanFordFacts.
Section dijkstra.
Context {Node : Type} `{Countable Node}.
Variable nodes : list Node.
Variable E : list (Edge Node).
Variable s : Node.
Hypothesis E_closed : closed_under nodes E.
Hypothesis s_node : s ∈ nodes.
Hypothesis E_nonneg : ∀ e, e ∈ E → (0 <= w e)%Q.
Implicit Types (dist : gmap Node ext) (todo : list Node).

Lemma dist_of_insert_eq dist k d : dist_of (<[k := d]> dist) k = d.
Proof. unfold dist_of. by rewrite lookup_insert_eq. Qed.

Lemma dist_of_insert_ne dist k x d :
  x ≠ k → dist_of (<[k := d]> dist) x = dist_of dist x.
Proof. intros Hne. unfold dist_of. by rewrite lookup_insert_ne. Qed.

Lemma nonneg_walk_weight src p x : walk E src p x → (0 <= weight p)%Q.
Proof.
  induction 1 as [|p e _ IH He]; simpl; [lra |].
  specialize (E_nonneg e He). lra.
Qed.

Lemma nonneg_no_negative_walk : no_negative_walk E.
Proof. intros x c Hc. by eapply nonneg_walk_weight. Qed.

Lemma ltb_le x y : ltb x y = true → le x y.
Proof.
  intros (a & -> & [->|(b & -> & Hlt)])%ltb_true; simpl; [done | lra].
Qed.

Lemma ltb_le_trans x y z : ltb x y = true → le y z → ltb x z = true.
Proof.
  intros (a & -> & [->|(b & -> & Hlt)])%ltb_true Hle;
    destruct z as [c|]; simpl in *; try done.
  apply bool_decide_eq_true. lra.
Qed.

Lemma le_ltb_trans x y z : le x y → ltb y z = true → ltb x z = true.
Proof.
  intros Hle (a & -> & [->|(b & -> & Hlt)])%ltb_true;
    destruct x as [c|]; simpl in *; try done.
  apply bool_decide_eq_true. lra.
Qed.

Lemma ltb_irrefl_le x y : ltb x y = true → le y x → False.
Proof. intros Hlt Hle%ltb_false. congruence. Qed.

Lemma pick_min_None dist todo :
  pick_min dist todo = None → ∀ y, y ∈ todo → dist_of dist y = Inf.
Proof.
  induction todo as [|n rest IH]; simpl; [by intros _ y ?%elem_of_nil |].
  destruct (pick_min dist rest) as [m|]; [by destruct (ltb _ _) |].
  destruct (dist_of dist n) eqn:Hn; [done |].
  intros _ y [->|Hy]%elem_of_cons; auto.
Qed.

Lemma pick_min_Some dist todo n :
  pick_min dist todo = Some n →
  n ∈ todo ∧ (∃ a, dist_of dist n = Fin a) ∧
  ∀ y, y ∈ todo → le (dist_of dist n) (dist_of dist y).
Proof.
  revert n. induction todo as [|m rest IH]; intros n; simpl; [done |].
  destruct (pick_min dist rest) as [m'|] eqn:Hrest.
  - destruct (IH m' eq_refl) as (Hin & Hfin & Hmin).
    destruct (ltb (dist_of dist m) (dist_of dist m')) eqn:Hlt;
      intros [= <-].
    + split_and!; [apply list_elem_of_here | |].
      * apply ltb_true in Hlt as (a & -> & _). eauto.
      * intros y [->|Hy]%elem_of_cons; [apply le_refl |].
        eapply le_trans; [by apply ltb_le | by apply Hmin].
    + split_and!; [by apply list_elem_of_further | done |].
      intros y [->|Hy]%elem_of_cons; [by apply ltb_false | by apply Hmin].
  - destruct (dist_of dist m) as [a|] eqn:Hm; simpl; [| done].
    intros [= <-]. split_and!; [apply list_elem_of_here | by eauto |].
    intros y [->|Hy]%elem_of_cons; [rewrite Hm; apply le_refl |].
    rewrite (pick_min_None _ _ Hrest y Hy). by destruct (dist_of dist m).
Qed.

(** Relaxing the edges that leave the settled node [n], whose distance
    is [a]: [n] keeps its distance, no distance grows, a distance that
    changes stays above [a], and every edge out of [n] is relaxed. *)
Lemma relax_out_fold n a (l : list (Edge Node)) dist :
  (∀ e, e ∈ l → (0 <= w e)%Q) → dist_of dist n = Fin a →
  dist_of (foldl (relax_out n) dist l) n = Fin a ∧
  (∀ x, dist_of (foldl (relax_out n) dist l) x = dist_of dist x ∨
        (le (Fin a) (dist_of (foldl (relax_out n) dist l) x) ∧
         ltb (dist_of (foldl (relax_out n) dist l) x) (dist_of dist x)
           = true)) ∧
  (∀ e, e ∈ l → u e = n →
        le (dist_of (foldl (relax_out n) dist l) (v e)) (Fin (a + w e))).
Proof.
  revert dist. induction l as [|e l IH]; intros dist Hl Hn; cbn [foldl].
  { split_and!; [done | by left | by intros e ?%elem_of_nil]. }
  assert (0 <= w e)%Q as Hw by (apply Hl, list_elem_of_here).
  assert (dist_of (relax_out n dist e) n = Fin a ∧
          (∀ x, dist_of (relax_out n dist e) x = dist_of dist x ∨
                (le (Fin a) (dist_of (relax_out n dist e) x) ∧
                 ltb (dist_of (relax_out n dist e) x) (dist_of dist x)
                   = true)) ∧
          (u e = n → le (dist_of (relax_out n dist e) (v e)) (Fin (a + w e))))
    as (Hn1 & Hch1 & He1).
  { unfold relax_out. destruct (decide (u e = n)) as [Hu|Hu];
      [| split_and!; [done | by left | done]].
    rewrite Hn. cbn [add].
    destruct (ltb (Fin (a + w e)) (dist_of dist (v e))) eqn:Hlt.
    - assert (v e ≠ n) as Hvn.
      { intros Hv. rewrite Hv, Hn in Hlt. simpl in Hlt.
        apply bool_decide_eq_true in Hlt. lra. }
      split_and!.
      + by rewrite dist_of_insert_ne.
      + intros x. destruct (decide (x = v e)) as [->|Hne].
        * rewrite dist_of_insert_eq. right. split; [simpl; lra | done].
        * rewrite dist_of_insert_ne by done. by left.
      + intros _. rewrite dist_of_insert_eq. apply le_refl.
    - split_and!; [done | by left |]. intros _. by apply ltb_false. }
  destruct (IH (relax_out n dist e)) as (Hn' & Hch' & He'); [| done |].
  { intros e' He0. apply Hl. by apply list_elem_of_further. }
  split_and!; [done | |].
  - intros x. destruct (Hch' x) as [->|[Hge Hlt]]; [apply Hch1 |].
    right. split; [done |].
    destruct (Hch1 x) as [<-|[_ Hlt1]]; [done |].
    eapply ltb_le_trans; [done | by apply ltb_le].
  - intros e' [->|Hin]%elem_of_cons Hu; [| by apply He'].
    destruct (Hch' (v e)) as [->|[_ Hlt]]; [by apply He1 |].
    eapply le_trans; [by apply ltb_le | by apply He1].
Qed.

Lemma relax_out_achieved n dist e :
  e ∈ E → achieved E (eq s) (dist_of dist) →
  achieved E (eq s) (dist_of (relax_out n dist e)).
Proof.
  intros He Hach x q. unfold relax_out.
  destruct (decide (u e = n)) as [<-|]; [| apply Hach].
  destruct (ltb _ _) eqn:Hlt; [| apply Hach].
  destruct (decide (x = v e)) as [->|Hne].
  - rewrite dist_of_insert_eq.
    destruct (dist_of dist (u e)) as [a|] eqn:Hu; [| done].
    simpl. intros [= <-].
    destruct (Hach _ _ Hu) as (s' & p & Hs & Hp & Hq).
    exists s', (e :: p). split_and!; [done | by constructor |].
    simpl. lra.
  - rewrite dist_of_insert_ne by done. apply Hach.
Qed.

Lemma relax_out_fold_achieved n (l : list (Edge Node)) dist :
  (∀ e, e ∈ l → e ∈ E) → achieved E (eq s) (dist_of dist) →
  achieved E (eq s) (dist_of (foldl (relax_out n) dist l)).
Proof.
  revert dist. induction l as [|e l IH]; intros dist Hl Hach; [done |].
  cbn [foldl]. apply IH.
  - intros e' He'. apply Hl. by apply list_elem_of_further.
  - apply relax_out_achieved; [| done]. apply Hl, list_elem_of_here.
Qed.

Lemma filter_ne_length n todo :
  n ∈ todo → length (filter (λ m, m ≠ n) todo) < length todo.
Proof.
  induction todo as [|m todo IH]; [by intros ?%elem_of_nil |].
  intros Hin. destruct (decide (m = n)) as [->|Hne].
  - rewrite filter_cons_False by (by intros ?).
    pose proof (length_filter (λ m, m ≠ n) todo). simpl. lia.
  - rewrite filter_cons_True by done. simpl.
    apply elem_of_cons in Hin as [?|Hin]; [done |].
    specialize (IH Hin). lia.
Qed.

(** Settling the node of least distance keeps the invariant. *)
Lemma dijkstra_step todo dist n :
  dijkstra_inv nodes E s todo dist → pick_min dist todo = Some n →
  dijkstra_inv nodes E s (filter (λ m, m ≠ n) todo)
    (foldl (relax_out n) dist E).
Proof.
  intros Hinv (Hn & [a Ha] & Hmin)%pick_min_Some.
  destruct (relax_out_fold n a E dist E_nonneg Ha) as (Ha' & Hch & Hout).
  set (dist' := foldl (relax_out n) dist E) in *.
  assert (∀ x, le (dist_of dist' x) (dist_of dist x)) as Hle.
  { intros x. destruct (Hch x) as [->|[_ Hlt]];
      [apply le_refl | by apply ltb_le]. }
  assert (∀ x, x ∈ nodes → x ∉ todo → dist_of dist' x = dist_of dist x)
    as Hkeep.
  { intros x Hx Hxt. destruct (Hch x) as [?|[Hge Hlt]]; [done |].
    exfalso. apply (ltb_irrefl_le _ _ Hlt).
    eapply le_trans; [| done]. rewrite <-Ha. by eapply dj_order. }
  assert (∀ x, x ∉ filter (λ m, m ≠ n) todo → x = n ∨ x ∉ todo) as Hout_of.
  { intros x Hx. destruct (decide (x = n)) as [|Hne]; [by left |].
    right. intros Hxt. apply Hx. by apply list_elem_of_filter. }
  split.
  - apply relax_out_fold_achieved; [done | by eapply dj_achieved].
  - eapply le_trans; [apply Hle | by eapply dj_source].
  - intros e He [Hu|Hu]%Hout_of.
    + rewrite Hu, Ha'. by apply Hout.
    + destruct (E_closed e He) as [Hue _].
      rewrite (Hkeep _ Hue Hu).
      eapply le_trans; [apply Hle | by eapply dj_settled].
  - intros x y Hx Hxt [Hyn Hy]%list_elem_of_filter.
    assert (le (dist_of dist' x) (Fin a)) as Hxa.
    { destruct (Hout_of x Hxt) as [->|Hxt'].
      - rewrite Ha'. apply le_refl.
      - rewrite (Hkeep _ Hx Hxt'), <-Ha. by eapply dj_order. }
    destruct (Hch y) as [->|[Hge _]].
    + destruct (Hout_of x Hxt) as [->|Hxt'].
      * rewrite Ha', <-Ha. by apply Hmin.
      * rewrite (Hkeep _ Hx Hxt'). by eapply dj_order.
    + by eapply le_trans.
Qed.

(** The loop ends with distances that are achieved and stable. *)
Lemma dijkstra_loop_spec fuel todo dist :
  dijkstra_inv nodes E s todo dist → length todo ≤ fuel →
  achieved E (eq s) (dist_of (dijkstra_loop fuel E todo dist)) ∧
  stable E (dist_of (dijkstra_loop fuel E todo dist)) ∧
  le (dist_of (dijkstra_loop fuel E todo dist) s) (Fin 0).
Proof.
  revert todo dist. induction fuel as [|fuel IH]; intros todo dist Hinv Hlen;
    cbn [dijkstra_loop].
  - destruct todo; [| simpl in Hlen; lia].
    split_and!; [by eapply dj_achieved | | by eapply dj_source].
    intros e He. eapply dj_settled; [done | done | apply not_elem_of_nil].
  - destruct (pick_min dist todo) as [n|] eqn:Hpick.
    + apply IH; [by apply dijkstra_step |].
      apply pick_min_Some in Hpick as [Hn _].
      pose proof (filter_ne_length n todo Hn). lia.
    + split_and!; [by eapply dj_achieved | | by eapply dj_source].
      intros e He. destruct (decide (u e ∈ todo)) as [Hu|Hu].
      * rewrite (pick_min_None _ _ Hpick _ Hu). simpl.
        by destruct (dist_of dist (v e)).
      * by eapply dj_settled.
Qed.

Lemma dijkstra_init :
  dijkstra_inv nodes E s nodes (<[s := Fin 0]> (dict_of_keys nodes inf)).
Proof.
  split.
  - intros x q. destruct (decide (x = s)) as [->|Hne].
    + rewrite dist_of_insert_eq. intros [= <-].
      exists s, []. split_and!; [done | constructor | done].
    + rewrite dist_of_insert_ne by done. unfold dist_of.
      rewrite dict_of_keys_lookup. by case_decide.
  - rewrite dist_of_insert_eq. apply le_refl.
  - intros e He Hu. by destruct (E_closed e He).
  - by intros x y Hx Hxt.
Qed.

(** Dijkstra's distances are shortest. *)
Lemma dijkstra_spec :
  achieved E (eq s) (dist_of (dijkstra nodes E s)) ∧
  lower_bound E (eq s) (dist_of (dijkstra nodes E s)).
Proof.
  destruct (dijkstra_loop_spec (length nodes) nodes _ dijkstra_init)
    as (Hach & Hst & Hs); [done |].
  split; [done |]. apply stable_lower_bound; [done |]. by intros s' <-.
Qed.

Lemma bellman_ford_dijkstra_eqv :
  ∃ dist pred neg,
    bellman_ford nodes E s = Ok (dist, pred, neg) ∧
    ∀ x, eqv (dist_of dist x) (dist_of (dijkstra nodes E s) x).
Proof.
  destruct (bellman_ford_spec nodes E s E_closed s_node
              nonneg_no_negative_walk) as (dist & pred & Hbf & Hinv & Hlb).
  destruct dijkstra_spec as [Hach Hlb'].
  exists dist, pred, false. split; [done |]. intros x.
  apply (shortest_unique E (eq s)); try done. by eapply inv_achieved.
Qed.

End dijkstra.

(** C3.  For a node list, an edge list without a negative weight and a
    source among the nodes, the distance that [bellman_ford] gives to
    every node is the one given by Dijkstra's algorithm.  [bellman_ford]
    returns whenever the edges join nodes of the list; otherwise it
    raises [KeyError]. *)
Theorem bellman_ford_equals_dijkstra {Node : Type} `{Countable Node}
    (nodes : list Node) (E : list (Edge Node)) (s : Node) :
  s ∈ nodes → (∀ e, e ∈ E → (0 <= w e)%Q) →
  (closed_under nodes E → ∃ res, bellman_ford nodes E s = Ok res) ∧
  (∀ dist pred neg, bellman_ford nodes E s = Ok (dist, pred, neg) →
     ∀ x, eqv (dist_of dist x) (dist_of (dijkstra nodes E s) x)).
Proof.
  intros Hs Hnonneg. split.
  - intros Hcl.
    destruct (bellman_ford_dijkstra_eqv nodes E s Hcl Hs Hnonneg)
      as (dist & pred & neg & -> & _). eauto.
  - intros dist pred neg Hbf.
    assert (closed_under nodes E) as Hcl.
    { destruct (bellman_ford_ok_closed _ _ _ _ Hs Hbf)
        as [?|(e & He & _ & _ & Hw & _)]; [done |].
      specialize (Hnonneg e He). lra. }
    destruct (bellman_ford_dijkstra_eqv nodes E s Hcl Hs Hnonneg)
      as (dist' & pred' & neg' & Hbf' & Heqv).
    rewrite Hbf in Hbf'. by injection Hbf' as <- <- <-.
Qed.

End DijkstraFacts.

(** * Further properties of the code *)

(** ** graph.py: what Bellman-Ford and the detector compute *)

Module GraphExtra.
Import Graph GraphDefs PathDefs FloatFacts WalkFacts RelaxFacts.
Import DetectFacts BellmanFordFacts.
Section graph.
Context {Node : Type} `{Countable Node}.
Implicit Types (nodes : list Node) (E l : list (Edge Node)) (s x : Node).
Implicit Types (dist : gmap Node ext) (pred : gmap Node (option Node)).










(** With every key in the dictionary nothing raises; what is raised is
    a [KeyError]. *)
Lemma getitem_raise dist x exn : getitem dist x = Raise exn → exn = KeyError.
Proof. unfold getitem. destruct (dist !! x); [done |]. by intros [= <-]. Qed.

Lemma relax_total dist pred c e :
  u e ∈ dom dist → v e ∈ dom dist →
  ∃ st, relax (dist, pred, c) e = Ok st.
Proof.
  intros [du Hu]%elem_of_dom [dv Hv]%elem_of_dom. unfold relax.
  rewrite (getitem_Some _ _ _ Hu), (getitem_Some _ _ _ Hv). cbn [obind].
  destruct (ltb _ _); eauto.
Qed.

Lemma relax_raise dist pred c e exn :
  relax (dist, pred, c) e = Raise exn → exn = KeyError.
Proof.
  unfold relax.
  destruct (getitem dist (u e)) as [du|] eqn:Hu;
    [| by intros [= <-]; eapply getitem_raise].
  destruct (getitem dist (v e)) as [dv|] eqn:Hv;
    [| by intros [= <-]; eapply getitem_raise].
  cbn [obind]. by destruct (ltb _ _).
Qed.

Lemma pass_total l dist pred c :
  (∀ e, e ∈ l → u e ∈ dom dist ∧ v e ∈ dom dist) →
  ∃ st, for_each relax l (dist, pred, c) = Ok st.
Proof.
  revert dist pred c. induction l as [|e l IH]; intros dist pred c Hl;
    [by eexists |].
  cbn [for_each].
  destruct (Hl e) as [Hu Hv]; [apply list_elem_of_here |].
  destruct (relax_total dist pred c e Hu Hv) as [[[dist1 pred1] c1] Hrel].
  rewrite Hrel. cbn [obind]. apply IH. intros e' He'.
  apply relax_keys in Hrel as (_ & _ & ->).
  by apply Hl, list_elem_of_further.
Qed.

Lemma pass_raise l dist pred c exn :
  for_each relax l (dist, pred, c) = Raise exn → exn = KeyError.
Proof.
  revert dist pred c. induction l as [|e l IH]; intros dist pred c; [done |].
  cbn [for_each].
  destruct (relax (dist, pred, c) e) as [[[dist1 pred1] c1]|] eqn:Hrel.
  - cbn [obind]. apply IH.
  - intros [= <-]. by eapply relax_raise.
Qed.

Lemma rounds_total k E dist pred :
  (∀ e, e ∈ E → u e ∈ dom dist ∧ v e ∈ dom dist) →
  ∃ st, relax_rounds k E dist pred = Ok st.
Proof.
  revert dist pred. induction k as [|k IH]; intros dist pred HE;
    [by eexists |].
  cbn [relax_rounds].
  destruct (pass_total E dist pred false HE) as [[[dist1 pred1] c1] Hfor].
  rewrite Hfor. cbn [obind]. destruct c1; [| by eexists].
  apply IH. apply pass_keys in Hfor as [-> _]. done.
Qed.

Lemma rounds_raise k E dist pred exn :
  relax_rounds k E dist pred = Raise exn → exn = KeyError.
Proof.
  revert dist pred. induction k as [|k IH]; intros dist pred; [done |].
  cbn [relax_rounds].
  destruct (for_each relax E (dist, pred, false))
    as [[[dist1 pred1] c1]|] eqn:Hfor.
  - cbn [obind]. destruct c1; [apply IH | done].
  - intros [= <-]. by eapply pass_raise.
Qed.

Lemma still_relaxes_total dist l :
  (∀ e, e ∈ l → u e ∈ dom dist ∧ v e ∈ dom dist) →
  ∃ neg, still_relaxes dist l = Ok neg.
Proof.
  induction l as [|e l IH]; intros Hl; [by eexists |].
  cbn [still_relaxes].
  destruct (Hl e) as [[du Hu]%elem_of_dom [dv Hv]%elem_of_dom];
    [apply list_elem_of_here |].
  rewrite (getitem_Some _ _ _ Hu), (getitem_Some _ _ _ Hv). cbn [obind].
  destruct (ltb _ _); [by eexists |].
  apply IH. intros e' He'. by apply Hl, list_elem_of_further.
Qed.

Lemma still_relaxes_raise dist l exn :
  still_relaxes dist l = Raise exn → exn = KeyError.
Proof.
  induction l as [|e l IH]; [done |]. cbn [still_relaxes].
  destruct (getitem dist (u e)) as [du|] eqn:Hu;
    [| by intros [= <-]; eapply getitem_raise].
  destruct (getitem dist (v e)) as [dv|] eqn:Hv;
    [| by intros [= <-]; eapply getitem_raise].
  cbn [obind]. by destruct (ltb _ _).
Qed.

Lemma bellman_ford_total nodes E s :
  s ∈ nodes → closed_under nodes E →
  ∃ res, bellman_ford nodes E s = Ok res.
Proof.
  intros Hs Hcl. unfold bellman_ford.
  pose proof (init_dist_dom nodes s Hs) as Hinit.
  destruct (rounds_total (length nodes - 1) E
              (<[s := Fin 0]> (dict_of_keys nodes inf))
              (dict_of_keys nodes None)) as [[dist pred] Hr].
  { intros e He. rewrite !Hinit. by apply Hcl. }
  rewrite Hr. cbn [obind].
  destruct (still_relaxes_total dist E) as [neg Hneg].
  { intros e He. apply rounds_keys in Hr as [-> _].
    rewrite !Hinit. by apply Hcl. }
  rewrite Hneg. by eexists.
Qed.

Lemma bellman_ford_raise nodes E s exn :
  bellman_ford nodes E s = Raise exn → exn = KeyError.
Proof.
  unfold bellman_ford.
  destruct (relax_rounds _ _ _ _) as [[dist pred]|] eqn:Hr.
  - cbn [obind]. destruct (still_relaxes dist E) as [neg|] eqn:Hneg; [done |].
    intros [= <-]. by eapply still_relaxes_raise.
  - intros [= <-]. by eapply rounds_raise.
Qed.

(** X21.  [bellman_ford] looks every edge up in the dictionary of the
    nodes.  From a source among at least two nodes it raises exactly
    when an edge has an end outside the node list, and what it raises
    is a [KeyError]; otherwise it returns, negative cycle or not. *)
Theorem bellman_ford_key_error nodes E s :
  s ∈ nodes → 1 < length nodes →
  (bellman_ford nodes E s = Raise KeyError ↔
   ∃ e, e ∈ E ∧ (u e ∉ nodes ∨ v e ∉ nodes)) ∧
  ((∃ res, bellman_ford nodes E s = Ok res) ↔ closed_under nodes E).
Proof.
  intros Hs Hlen.
  assert ((∃ res, bellman_ford nodes E s = Ok res) ↔ closed_under nodes E)
    as Hok.
  { split; [| by apply bellman_ford_total].
    intros [res Hbf].
    destruct (bellman_ford_ok_closed _ _ _ _ Hs Hbf)
      as [?|(_ & _ & _ & _ & _ & ?)]; [done | lia]. }
  split; [| done]. split.
  - intros Hbf.
    destruct (decide (Forall (λ e, u e ∈ nodes ∧ v e ∈ nodes) E))
      as [Hall|Hex].
    + destruct (proj2 Hok) as [res Hres]; [| congruence].
      intros e He. by apply (proj1 (Forall_forall _ _) Hall).
    + apply not_Forall_Exists, Exists_exists in Hex as (e & He & Hn);
        [| apply _].
      exists e. split; [done |]. by apply not_and_l in Hn.
  - intros (e & He & Hout).
    destruct (bellman_ford nodes E s) as [res|exn] eqn:Hbf.
    + destruct (proj1 Hok (ex_intro _ res eq_refl) e He) as [Hu Hv].
      by destruct Hout.
    + by rewrite (bellman_ford_raise _ _ _ _ Hbf).
Qed.

End graph.
End GraphExtra.

(** ** planner.py: the paths and the plans returned *)

Module PlannerExtra.
Import Fsm Graph Planner GraphDefs PathDefs FloatFacts WalkFacts RelaxFacts.
Import PlannerDefs DetectFacts BellmanFordFacts FsmFacts PlannerFacts.

Section reconstruct.
Context {State : Type} `{Countable State}.
Implicit Types (pred : gmap State (option State)) (visited : gset State).
Implicit Types (path chain : list State) (dist : gmap State ext).
Implicit Types (nodes : list State) (E : list (Edge State)) (s t : State).

(** A reconstruction loop that finishes has followed predecessor links
    from its start to a node without predecessor, through nodes that are
    all different and were not visited before. *)
Lemma walk_back_chain fuel pred path c visited path' :
  walk_back fuel pred path (Some c) visited = Some (Finished path') →
  ∃ chain,
    path' = path ++ c :: chain ∧ linked pred c chain ∧
    (∀ y, last (c :: chain) = Some y → pred_of pred y = None) ∧
    NoDup (c :: chain) ∧ ∀ x, x ∈ c :: chain → x ∉ visited.
Proof.
  revert path c visited.
  induction fuel as [|fuel IH]; intros path c visited; cbn [walk_back];
    destruct (decide (c ∈ visited)) as [Hin|Hnin]; try done.
  destruct (mjoin (pred !! c)) as [c'|] eqn:Hc.
  - intros (chain & -> & Hl & Hlast & Hnd & Hvis)%IH.
    exists (c' :: chain). split_and!.
    + by rewrite <-app_assoc.
    + by constructor.
    + done.
    + constructor; [| done]. intros Hin%Hvis. apply Hin.
      apply elem_of_union. left. by apply elem_of_singleton.
    + intros x [->|Hx]%elem_of_cons; [done |].
      intros Hin. apply (Hvis x Hx), elem_of_union. by right.
  - destruct fuel; cbn [walk_back]; intros [= <-]; exists [];
      (split_and!; [done | constructor | by intros y [= <-] | | ]);
      try (apply NoDup_singleton);
      by intros x ->%list_elem_of_singleton.
Qed.

(** The loop reports a revisited node only if the predecessor links
    from its start lead into a cycle or to a node visited before. *)
Lemma walk_back_revisited fuel pred path c visited :
  walk_back fuel pred path (Some c) visited = Some Revisited →
  ∃ x, rtc (pstep pred) c x ∧ x ∈ visited ∨
       rtc (pstep pred) c x ∧ tc (pstep pred) x x.
Proof.
  revert path c visited.
  induction fuel as [|fuel IH]; intros path c visited; cbn [walk_back];
    destruct (decide (c ∈ visited)) as [Hin|Hnin]; try done;
    try (intros _; exists c; left; by split).
  destruct (mjoin (pred !! c)) as [c'|] eqn:Hc; [| by destruct fuel].
  intros (x & [[Hrtc Hx]|[Hrtc Hx]])%IH.
  - apply elem_of_union in Hx as [->%elem_of_singleton|Hx].
    + exists c. right. split; [done |].
      eapply tc_rtc_r; [apply tc_once, Hc | done].
    + exists x. left. split; [| done]. by eapply rtc_l.
  - exists x. right. split; [| done]. by eapply rtc_l.
Qed.

(** Following predecessor links from the start of a finished chain
    stays on the chain. *)
Lemma linked_rtc pred c chain x :
  linked pred c chain →
  (∀ y, last (c :: chain) = Some y → pred_of pred y = None) →
  rtc (pstep pred) c x →
  ∃ l1 l2, c :: chain = l1 ++ x :: l2 ∧ linked pred x l2 ∧
           ∀ y, last (x :: l2) = Some y → pred_of pred y = None.
Proof.
  intros Hl Hlast Hrtc. revert chain Hl Hlast.
  induction Hrtc as [c|c z x Hstep Hrtc IH]; intros chain Hl Hlast.
  - by exists [], chain.
  - destruct Hl as [c|c c' chain Hstep' Hl].
    + unfold pstep in Hstep. by rewrite (Hlast c) in Hstep.
    + unfold pstep in Hstep, Hstep'. rewrite Hstep in Hstep'.
      injection Hstep' as ->.
      destruct (IH chain Hl Hlast) as (l1 & l2 & Heq & Hl2 & Hlast2).
      exists (c :: l1), l2. by rewrite Heq.
Qed.

(** A finished chain meets no cycle of predecessor links. *)
Lemma linked_no_cycle pred c chain x :
  linked pred c chain →
  (∀ y, last (c :: chain) = Some y → pred_of pred y = None) →
  NoDup (c :: chain) →
  rtc (pstep pred) c x → ¬ tc (pstep pred) x x.
Proof.
  intros Hl Hlast Hnd Hrtc Htc.
  destruct (linked_rtc _ _ _ _ Hl Hlast Hrtc)
    as (l1 & l2 & Heq & Hl2 & Hlast2).
  apply tc_first_step in Htc as (y & Hstep & Hrtc').
  assert (rtc (pstep pred) x x) as Hxx by by eapply rtc_l.
  destruct Hl2 as [x|x x' l2 Hstep' Hl2].
  { unfold pstep in Hstep. by rewrite (Hlast2 x) in Hstep. }
  unfold pstep in Hstep, Hstep'. rewrite Hstep in Hstep'.
  injection Hstep' as ->.
  destruct (linked_rtc _ _ _ _ Hl2 Hlast2 Hrtc') as (m1 & m2 & Heq' & _).
  rewrite Heq, Heq' in Hnd.
  apply NoDup_app in Hnd as (_ & _ & Hnd).
  apply NoDup_cons in Hnd as [Hnin _]. apply Hnin.
  apply elem_of_app. right. apply list_elem_of_here.
Qed.

(** X10.  The loop that rebuilds a path from the predecessors ends on
    every dictionary, cyclic or not.  It reports a revisited node
    exactly when following the links from the target runs into a cycle;
    otherwise it collects the chain of links from the target to a node
    without predecessor, every node once. *)
Theorem reconstruction_guard pred dst :
  ∃ r, walk_back (walk_fuel pred) pred [] (Some dst) ∅ = Some r ∧
    match r with
    | Revisited =>
        ∃ x, rtc (pstep pred) dst x ∧ tc (pstep pred) x x
    | Finished path =>
        (∀ x, rtc (pstep pred) dst x → ¬ tc (pstep pred) x x) ∧
        ∃ chain, path = dst :: chain ∧ linked pred dst chain ∧
                 NoDup path ∧
                 ∀ y, last path = Some y → pred_of pred y = None
    end.
Proof.
  destruct (walk_back_enough_fuel pred dst) as [r Hr]. exists r.
  split; [done |]. destruct r as [path|].
  - apply walk_back_chain in Hr as (chain & -> & Hl & Hlast & Hnd & _).
    rewrite app_nil_l. split; [| by exists chain].
    intros x. by eapply linked_no_cycle.
  - apply walk_back_revisited in Hr as (x & [[_ Hx]|[Hrtc Htc]]).
    + by apply elem_of_empty in Hx.
    + by exists x.
Qed.








End reconstruct.

Section plan.
Context {State Event : Type} `{Countable State} `{EqDecision Event}.
Implicit Types (fsm : FSM State Event) (A B C : State).





End plan.
End PlannerExtra.

(** ** spec.py: what the aggregator guarantees *)

Module SpecExtra.
Import Spec SpecDefs SpecFacts.
Local Open Scope R_scope.


(** What a returned breakdown records. *)
Lemma aggregate_inv attrs policy cost bd :
  aggregate_cost_with_breakdown attrs policy = Ok (cost, bd) →
  (if decide (resolved_velocity attrs policy > 0)
   then _gamma (resolved_velocity attrs policy) else Ok 1)
    = Ok (bd_gamma bd) ∧
  bd_duration_s bd = resolve_duration attrs ∧
  bd_crew_time_s bd =
    match attrs !! "crew_time_s" with
    | Some c => c
    | None => if decide (resolve_duration attrs > 0)
              then resolve_duration attrs / bd_gamma bd else 0
    end ∧
  bd_risk_penalty bd =
    - ln (Rmax 1e-12 (1 - Rmin (Rmax (attr attrs "risk_prob") 0) 0.999999)) ∧
  warnings_of (attr attrs "distance_m") (resolve_duration attrs)
    (resolved_velocity attrs policy) (attr attrs "risk_prob")
    (bd_crew_time_s bd) = Ok (bd_warnings bd).
Proof.
  unfold aggregate_cost_with_breakdown. rewrite resolve_beta_ok.
  intros Hagg.
  repeat match type of Hagg with
  | obind ?m _ = Ok _ =>
      let x := fresh "x" in
      let E := fresh "E" in
      destruct m as [x|] eqn:E; simpl in Hagg; [| discriminate]
  end.
  injection Hagg as <- <-. simpl.
  match goal with H : math_log _ = Ok _ |- _ =>
    apply math_log_inv in H; rewrite H end.
  split_and!; try done.
  destruct (attrs !! "crew_time_s"); [congruence |].
  destruct (decide (resolve_duration attrs > 0)); [| congruence].
  match goal with H : fdiv (resolve_duration attrs) _ = Ok _ |- _ =>
    by apply fdiv_inv in H end.
Qed.

(** The relativistic factor is at least one. *)
Lemma gamma_ge_1 beta g : _gamma beta = Ok g → 1 <= g.
Proof.
  intros Hg. pose proof (gamma_inv _ _ Hg) as ->.
  unfold _gamma in Hg. case_decide as Hb; [done |].
  assert (0 <= beta < 1) as Hb' by lra.
  assert (0 < 1 - beta * beta <= 1) as [Hpos Hle] by nra.
  pose proof (sqrt_lt_R0 _ Hpos) as Hs.
  pose proof (sqrt_le_1_alt _ _ Hle) as Hs1. rewrite sqrt_1 in Hs1.
  assert (1 / sqrt (1 - beta * beta) * sqrt (1 - beta * beta) = 1) as Hx
    by (field; lra).
  revert Hx. generalize (1 / sqrt (1 - beta * beta)). intros x Hx. nra.
Qed.

Lemma div_bounds a b : 0 <= a → 1 <= b → 0 <= a / b <= a ∧ a / b * b = a.
Proof.
  intros Ha Hb. assert (a / b * b = a) as Hx by (field; lra).
  split; [| done]. revert Hx. generalize (a / b). intros x Hx. nra.
Qed.

Lemma ln_le a b : 0 < a → a <= b → ln a <= ln b.
Proof.
  intros Ha [Hlt| ->]; [| lra]. apply Rlt_le. by apply ln_increasing.
Qed.



(** X13.  In every breakdown returned the relativistic factor is at
    least one.  When the crew time is not given and the duration is not
    negative, the crew time derived lies between zero and the duration,
    it is the duration divided by the factor, and the warning about a
    crew time above the earth-frame duration is not issued. *)
Theorem time_dilation attrs policy cost bd :
  aggregate_cost_with_breakdown attrs policy = Ok (cost, bd) →
  1 <= bd_gamma bd ∧
  (attrs !! "crew_time_s" = None → 0 <= resolve_duration attrs →
   0 <= bd_crew_time_s bd <= bd_duration_s bd ∧
   bd_crew_time_s bd * bd_gamma bd = bd_duration_s bd ∧
   "crew_time exceeds earth-frame duration (unexpected)" ∉ bd_warnings bd).
Proof.
  intros (Hg & Hd & Hc & _ & Hw)%aggregate_inv.
  assert (1 <= bd_gamma bd) as Hg1.
  { destruct (decide (resolved_velocity attrs policy > 0));
      [by eapply gamma_ge_1 | injection Hg as <-; lra]. }
  split; [done |]. intros Hcrew Hdur. rewrite Hcrew in Hc. rewrite Hd.
  assert (0 <= bd_crew_time_s bd <= resolve_duration attrs ∧
          bd_crew_time_s bd * bd_gamma bd = resolve_duration attrs)
    as [Hbounds Hprod].
  { rewrite Hc. case_decide as Hpos.
    - apply div_bounds; lra.
    - split; [lra |]. lra. }
  split; [done |]. split; [done |].
  revert Hw. unfold warnings_of.
  repeat match goal with
  | |- obind ?m _ = Ok _ → _ =>
      let x := fresh "x" in
      let E := fresh "E" in
      destruct m as [x|] eqn:E; simpl; [| discriminate]
  end.
  intros [= <-].
  rewrite (decide_False (P := bd_crew_time_s bd > _)) by lra.
  rewrite app_nil_r.
  repeat match goal with
  | H : (if ?c then _ else _) = Ok _ |- _ => destruct c; simpl in H
  | H : obind ?m _ = Ok _ |- _ =>
      let y := fresh "y" in destruct m as [y|]; simpl in H; [| discriminate]
  | H : Ok _ = Ok _ |- _ => injection H as <-
  end;
  repeat case_decide;
  intros Hin; repeat (apply elem_of_cons in Hin as [Hin|Hin]; [discriminate Hin|]);
  by apply elem_of_nil in Hin.
Qed.

(** X14.  The risk penalty of a returned breakdown is
    [-ln(1 - min(max(risk_prob, 0), 0.999999))]: the floor [1e-12] under
    the logarithm is never reached.  The penalty lies between zero and
    [-ln(0.000001)], and it is zero when the risk is not positive. *)
Theorem risk_penalty_bounds attrs policy cost bd :
  aggregate_cost_with_breakdown attrs policy = Ok (cost, bd) →
  bd_risk_penalty bd
    = - ln (1 - Rmin (Rmax (attr attrs "risk_prob") 0) 0.999999) ∧
  0 <= bd_risk_penalty bd <= - ln 0.000001 ∧
  (attr attrs "risk_prob" <= 0 → bd_risk_penalty bd = 0).
Proof.
  intros (_ & _ & _ & Hp & _)%aggregate_inv. rewrite Hp.
  set (r := Rmin (Rmax (attr attrs "risk_prob") 0) 0.999999).
  assert (0 <= r <= 0.999999) as Hr.
  { unfold r. split; [| apply Rmin_r].
    apply Rmin_glb; [apply Rmax_r | lra]. }
  assert (Rmax 1e-12 (1 - r) = 1 - r) as ->.
  { apply Rmax_right. lra. }
  split; [done |]. split; [split |].
  - pose proof (ln_le (1 - r) 1) as Hln. rewrite ln_1 in Hln. lra.
  - pose proof (ln_le 0.000001 (1 - r)) as Hln. lra.
  - intros Hneg. assert (r = 0) as ->.
    { unfold r. rewrite Rmax_right by done. apply Rmin_left. lra. }
    rewrite Rminus_0_r, ln_1. lra.
Qed.

(** X15.  The effective weights of a returned breakdown.  Outside
    [real_world] mode they are the weights of the policy.  In
    [real_world] mode, whatever the case of the letters of the mode, the
    energy weight is the policy's and a non-negative earth-time, crew-time
    or risk weight is raised by a factor of at most 1.5, 1.2 and 2.98. *)
Theorem effective_weights_bounds attrs policy cost bd :
  aggregate_cost_with_breakdown attrs policy = Ok (cost, bd) →
  ew_energy (bd_effective_weights bd) = energy_weight policy ∧
  (lower (default "" (mode policy)) ≠ "real_world" →
   bd_effective_weights bd
     = mkWeights (energy_weight policy) (earth_time_weight policy)
         (crew_time_weight policy) (risk_weight policy)) ∧
  (lower (default "" (mode policy)) = "real_world" →
   (0 <= earth_time_weight policy →
    earth_time_weight policy <= ew_earth_time (bd_effective_weights bd)
      <= 1.5 * earth_time_weight policy) ∧
   (0 <= crew_time_weight policy →
    crew_time_weight policy <= ew_crew_time (bd_effective_weights bd)
      <= 1.2 * crew_time_weight policy) ∧
   (0 <= risk_weight policy →
    risk_weight policy <= ew_risk (bd_effective_weights bd)
      <= 2.98 * risk_weight policy)).
Proof.
  unfold aggregate_cost_with_breakdown. rewrite resolve_beta_ok.
  intros Hagg.
  repeat match type of Hagg with
  | obind ?m _ = Ok _ =>
      let x := fresh "x" in
      let E := fresh "E" in
      destruct m as [x|] eqn:E; simpl in Hagg; [| discriminate]
  end.
  injection Hagg as <- <-. cbn [bd_effective_weights].
  split_and!.
  - done.
  - intros Hm. by rewrite bool_decide_eq_false_2.
  - intros Hm. rewrite bool_decide_eq_true_2 by done.
    cbn [ew_earth_time ew_crew_time ew_risk].
    set (days := if decide (resolve_duration attrs > 0)
                 then resolve_duration attrs / 86400 else 0).
    assert (0 <= Rmin days 10 <= 10) as Hdays.
    { split; [| apply Rmin_r]. apply Rmin_glb; [| lra].
      unfold days. case_decide; [| lra].
      apply (div_bounds (resolve_duration attrs) 86400); lra. }
    set (r := Rmin (Rmax (attr attrs "risk_prob") 0) 0.99).
    assert (0 <= r <= 0.99) as Hr.
    { unfold r. split; [| apply Rmin_r].
      apply Rmin_glb; [apply Rmax_r | lra]. }
    split_and!; intros Hw; nra.
Qed.

(** X22.  The relativistic factor: [_gamma] raises exactly for a
    velocity fraction outside [0,1); inside it returns a factor of at
    least one that satisfies [gamma^2 (1 - beta^2) = 1], and the factor
    of a body at rest is one. *)
Theorem gamma_lorentz beta :
  (raises (_gamma beta) ↔ beta < 0 ∨ beta >= 1) ∧
  (∀ g, _gamma beta = Ok g → 1 <= g ∧ g * g * (1 - beta * beta) = 1) ∧
  _gamma 0 = Ok 1.
Proof.
  split_and!.
  - destruct (decide (beta < 0 ∨ beta >= 1)) as [Hb|Hb].
    + by rewrite gamma_raise.
    + destruct (gamma_ok beta) as [-> _]; [lra |]. simpl. tauto.
  - intros g Hg. split; [by eapply gamma_ge_1 |].
    pose proof (gamma_inv _ _ Hg) as ->.
    unfold _gamma in Hg. case_decide as Hb; [done |].
    assert (0 < 1 - beta * beta) as Hpos by nra.
    pose proof (sqrt_lt_R0 _ Hpos) as Hs.
    pose proof (sqrt_sqrt (1 - beta * beta) (Rlt_le _ _ Hpos)) as Hsq.
    rewrite <-Hsq at 3. field. lra.
  - destruct (gamma_ok 0) as [-> _]; [lra |].
    f_equal. rewrite Rmult_0_l, Rminus_0_r, sqrt_1. field.
Qed.

End SpecExtra.

(** ** cli.py: the exit code of the [plan] command *)

Module CliExtra.
Import Fsm Graph Planner GraphDefs PlannerDefs Cli CliDefs.
Import FsmFacts DetectFacts PlannerFacts.

Lemma plan_returns (fsm : FSM string string) A B C forbid :
  built fsm → ∃ res, plan_cycle_ABC fsm A B C forbid = Ok res.
Proof.
  intros Hb. pose proof (built_edges_closed _ Hb) as Hcl.
  destruct (decide (A ∉ states fsm ∨ B ∉ states fsm ∨ C ∉ states fsm))
    as [Hun|Hreg].
  { rewrite plan_unregistered by done. by eexists. }
  assert (A ∈ states fsm ∧ B ∈ states fsm ∧ C ∈ states fsm)
    as (HA & HB & HC).
  { split_and!; apply dec_stable; intros ?; apply Hreg; auto. }
  rewrite plan_registered by done.
  destruct (detect_any_negative_cycle _ _) eqn:Hdet; [by eexists |].
  destruct (leg_spec fsm forbid A B Hcl HA Hdet)
    as [->|(p1 & q1 & -> & _)]; cbn [obind]; [by eexists |].
  destruct (is_empty p1); [by eexists |].
  destruct (leg_spec fsm forbid B C Hcl HB Hdet)
    as [->|(p2 & q2 & -> & _)]; cbn [obind]; [by eexists |].
  destruct (is_empty p2); [by eexists |].
  destruct (leg_spec fsm forbid C A Hcl HC Hdet)
    as [->|(p3 & q3 & -> & _)]; cbn [obind]; [by eexists |].
  destruct (is_empty p3); by eexists.
Qed.

Lemma add_edges (fsm : FSM string string) edges :
  match for_each (λ fsm '(src, dst, w),
                    let r := add_transition fsm src dst None w in
                    _ ←! r.1; Ok r.2) edges fsm with
  | Ok fsm' =>
      fsm' = foldl (λ fsm '(src, dst, w),
                      (add_transition fsm src dst None w).2) fsm edges ∧
      ∀ s d w, (s, d, w) ∈ edges → s ∈ states fsm ∧ d ∈ states fsm
  | Raise exn =>
      exn = "src/dst must be existing states" ∧
      ∃ s d w, (s, d, w) ∈ edges ∧ (s ∉ states fsm ∨ d ∉ states fsm)
  end.
Proof.
  revert fsm. induction edges as [|[[s d] w] edges IH]; intros fsm.
  - cbn [for_each foldl]. split; [done |]. by intros s d w ?%elem_of_nil.
  - cbn [for_each foldl].
    destruct (decide (s ∉ states fsm ∨ d ∉ states fsm)) as [Hun|Hreg].
    + rewrite add_transition_raise by done. cbn [obind fst].
      split; [done |]. exists s, d, w. split; [apply list_elem_of_here | done].
    + assert (s ∈ states fsm ∧ d ∈ states fsm) as [Hs Hd].
      { split; apply dec_stable; intros ?; apply Hreg; auto. }
      rewrite add_transition_ok by done. cbn [obind fst snd].
      specialize (IH (mkFSM (states fsm) (initial fsm)
        (OrderedDict.set (s, None)
           (OrderedDict.set d w (neighbors fsm s None)) (_edges fsm)))).
      destruct (for_each _ edges _) as [fsm'|exn].
      * destruct IH as [-> Hall]. split; [done |].
        intros s' d' w' [[= -> -> ->]|Hin]%elem_of_cons; [done |].
        by apply Hall in Hin.
      * destruct IH as [-> (s' & d' & w' & Hin & Hout)]. split; [done |].
        exists s', d', w'. split; [by apply list_elem_of_further | done].
Qed.

Lemma graph_of_args_built sts init edges :
  init ∈ sts → built (graph_of_args sts init edges).
Proof.
  intros Hin. unfold graph_of_args.
  assert (built (mkFSM (Event := string) (list_to_set sts) init [])) as Hb.
  { apply (built_new sts init). unfold new.
    rewrite decide_False; [done |]. intros Hn. apply Hn.
    by apply elem_of_list_to_set. }
  revert Hb. generalize (mkFSM (Event := string) (list_to_set sts) init []).
  induction edges as [|[[s d] w] edges IH]; intros fsm Hb; [done |].
  cbn [foldl]. apply IH. by constructor.
Qed.

(** X23.  The [plan] command, on parsed arguments.  It raises only while
    the graph is built: when the initial state is not among the states,
    and else when an edge names a state that is not.  Otherwise the
    planner returns on the graph built from the edges, and the exit code
    is 0 if the plan is ok and 2 if it is not. *)
Theorem cmd_plan_exit_code sts init edges A B C forbid :
  match cmd_plan sts init edges (A, B, C) forbid with
  | Raise exn =>
      ((init ∉ sts) ∧ exn = "initial state not in states") ∨
      (init ∈ sts ∧ exn = "src/dst must be existing states" ∧
       ∃ s d w, (s, d, w) ∈ edges ∧ (s ∉ sts ∨ d ∉ sts))
  | Ok code =>
      init ∈ sts ∧
      (∀ s d w, (s, d, w) ∈ edges → s ∈ sts ∧ d ∈ sts) ∧
      ∃ res,
        plan_cycle_ABC (graph_of_args sts init edges) A B C forbid = Ok res ∧
        code = (if ok res then 0 else 2)%Z
  end.
Proof.
  unfold cmd_plan, new.
  destruct (decide (init ∉ list_to_set (C := gset string) sts)) as [Hn|Hin].
  { cbn [obind]. left. split; [| done].
    by rewrite <-(elem_of_list_to_set (C := gset string)). }
  apply dec_stable in Hin. apply elem_of_list_to_set in Hin.
  cbn [obind].
  pose proof (add_edges (mkFSM (list_to_set sts) init []) edges) as Hadd.
  destruct (for_each _ edges _) as [fsm|exn]; cbn [obind].
  - destruct Hadd as [-> Hall].
    destruct (plan_returns (graph_of_args sts init edges) A B C forbid)
      as [res Hres]; [by apply graph_of_args_built |].
    unfold graph_of_args in Hres. rewrite Hres. cbn [obind].
    split; [done |]. split.
    + intros s d w [Hs Hd]%Hall. cbn [states] in Hs, Hd.
      by rewrite !elem_of_list_to_set in Hs, Hd.
    + by exists res.
  - destruct Hadd as [-> (s & d & w & Hedge & Hout)]. right.
    split; [done |]. split; [done |]. exists s, d, w. split; [done |].
    cbn [states] in Hout. by rewrite !elem_of_list_to_set in Hout.
Qed.

End CliExtra.

(** ** fsm.py: the enumeration of the transitions *)

Module FsmExtra.
Import OrderedDict OrderedDictFacts Fsm FsmFacts.
Section fsm.
Context {State Event : Type} `{Countable State} `{EqDecision Event}.
Implicit Types (fsm : FSM State Event) (t : Transition State Event).
Implicit Types (l : odict (State * option Event) (odict State Q)).
Implicit Types (b : odict State Q) (k : State * option Event).

Lemma transitions_app st i l1 l2 :
  transitions (mkFSM st i (l1 ++ l2))
  = transitions (mkFSM st i l1) ++ transitions (mkFSM st i l2).
Proof. unfold transitions. simpl. apply bind_app. Qed.

Lemma transitions_bucket st i k b :
  transitions (mkFSM st i [(k, b)])
  = (λ dw, mkTransition k.1 k.2 dw.1 dw.2) <$> b.
Proof.
  unfold transitions. simpl. rewrite app_nil_r.
  induction b as [|[d w] b IH]; [done |].
  by rewrite bind_cons, fmap_cons, IH.
Qed.

Lemma transitions_cons st i k b l :
  transitions (mkFSM st i ((k, b) :: l))
  = ((λ dw, mkTransition k.1 k.2 dw.1 dw.2) <$> b)
    ++ transitions (mkFSM st i l).
Proof.
  change ((k, b) :: l) with ([(k, b)] ++ l).
  by rewrite transitions_app, transitions_bucket.
Qed.

Lemma transitions_key st i l t :
  t ∈ transitions (mkFSM st i l) → (src t, event t) ∈ l.*1.
Proof.
  intros (b & Hin & _)%elem_of_transitions. simpl in Hin.
  apply list_elem_of_fmap. by exists ((src t, event t), b).
Qed.

Lemma NoDup_transitions st i l :
  NoDup l.*1 → (∀ k b, (k, b) ∈ l → NoDup b.*1) →
  NoDup ((λ t, (src t, event t, dst t)) <$> transitions (mkFSM st i l)).
Proof.
  induction l as [|[k b] l IH]; intros Hk Hb; [apply NoDup_nil_2 |].
  rewrite fmap_cons in Hk. apply NoDup_cons in Hk as [Hnin Hk].
  rewrite transitions_cons, fmap_app. apply NoDup_app. split_and!.
  - rewrite <-list_fmap_compose.
    assert (NoDup ((λ d, (k.1, k.2, d)) <$> b.*1)) as Hnd.
    { apply NoDup_fmap_2; [by intros d1 d2 [= ->] |].
      apply (Hb k b), list_elem_of_here. }
    by rewrite <-list_fmap_compose in Hnd.
  - intros x (t1 & -> & (dw & -> & _)%list_elem_of_fmap)%list_elem_of_fmap.
    intros (t2 & Heq & Ht2%transitions_key)%list_elem_of_fmap.
    simpl in Heq. injection Heq as Hs He _. apply Hnin.
    rewrite <-Hs, <-He in Ht2. by destruct k.
  - apply IH; [done |]. intros k' b' Hin.
    apply (Hb k' b'), list_elem_of_further, Hin.
Qed.

Lemma set_present {K V} `{EqDecision K} (k : K) (v v0 : V)
    (d : list (K * V)) :
  get k d = Some v0 →
  ∃ r1 r2, d = r1 ++ (k, v0) :: r2 ∧ set k v d = r1 ++ (k, v) :: r2 ∧
           k ∉ r1.*1.
Proof.
  induction d as [|[k' v'] r IH]; simpl; [done |].
  destruct (decide (k = k')) as [<-|Hne].
  - intros [= ->]. exists [], r. split_and!; [done | done |].
    apply not_elem_of_nil.
  - intros (r1 & r2 & -> & -> & Hnin)%IH.
    exists ((k', v') :: r1), r2. split_and!; [done | done |].
    rewrite fmap_cons. by intros [?|?]%elem_of_cons.
Qed.

Lemma set_absent {K V} `{EqDecision K} (k : K) (v : V) (d : list (K * V)) :
  get k d = None → set k v d = d ++ [(k, v)] ∧ k ∉ d.*1.
Proof.
  induction d as [|[k' v'] r IH]; simpl.
  - intros _. split; [done | apply not_elem_of_nil].
  - destruct (decide (k = k')) as [<-|Hne]; [done |].
    intros [-> Hnin]%IH. split; [done |].
    by intros [?|?]%elem_of_cons.
Qed.

Lemma set_nonempty {K V} `{EqDecision K} (k : K) (v : V) (d : list (K * V)) :
  set k v d ≠ [].
Proof. destruct d as [|[k' v'] r]; simpl; [done |]. by case_decide. Qed.

(** No bucket of a built graph is empty. *)
Lemma built_buckets_nonempty fsm k b :
  built fsm → (k, b) ∈ _edges fsm → b ≠ [].
Proof.
  intros Hb. revert k b.
  induction Hb as [sts init fsm Hnew | fsm s d e w Hb IH]; intros k b.
  - unfold new in Hnew. case_decide; [done |]. injection Hnew as <-.
    by intros ?%elem_of_nil.
  - unfold add_transition. case_decide; [apply IH |]. simpl.
    destruct (built_keys_unique _ Hb) as [Hk _].
    intros [[-> ->]|[_ Hin]]%elem_of_set; [| | done].
    + apply set_nonempty.
    + by eapply IH.
Qed.

Lemma fmap_fixed {A} (f : A → A) (l : list A) :
  (∀ x, x ∈ l → f x = x) → f <$> l = l.
Proof.
  induction l as [|a l IH]; intros Hf; [done |].
  rewrite fmap_cons, Hf, IH; [done | |apply list_elem_of_here].
  intros x Hx. by apply Hf, list_elem_of_further.
Qed.

(** X16.  The states and the initial state of a graph are fixed when it
    is constructed: [add_transition] changes neither, whether it raises
    or not, and the initial state is a registered state. *)
Theorem built_initial_registered fsm :
  built fsm →
  initial fsm ∈ states fsm ∧
  ∀ s d e w,
    states (add_transition fsm s d e w).2 = states fsm ∧
    initial (add_transition fsm s d e w).2 = initial fsm.
Proof.
  intros Hb. split.
  - induction Hb as [sts init fsm Hnew | fsm s d e w Hb IH].
    + unfold new in Hnew. case_decide as Hin; [done |].
      by injection Hnew as <-.
    + unfold add_transition. by case_decide.
  - intros s d e w. unfold add_transition. by case_decide.
Qed.

(** X17.  [transitions] lists every stored key [(src, event, dst)] of a
    built graph once, and it lists a transition exactly when
    [neighbors(src, event)] maps its target to its weight. *)
Theorem transitions_neighbors fsm :
  built fsm →
  NoDup ((λ t, (src t, event t, dst t)) <$> transitions fsm) ∧
  ∀ s e d w,
    mkTransition s e d w ∈ transitions fsm ↔
    get d (neighbors fsm s e) = Some w.
Proof.
  intros Hb. pose proof (built_keys_unique _ Hb) as Hu. split.
  - destruct fsm as [st i l]. destruct Hu as [Hk Hbk].
    by apply NoDup_transitions.
  - intros s e d w. rewrite transitions_edge_weight by done.
    unfold edge_weight, neighbors. simpl.
    by destruct (get (s, e) (_edges fsm)).
Qed.

(** X18.  [add_transition] keeps the order of the enumeration.  Writing
    a key that is stored replaces its transition where it stands.  A new
    key is inserted without moving the others: after the last transition
    with the same source and event if there is one, at the end
    otherwise. *)
Theorem add_transition_order fsm s d e w :
  built fsm → s ∈ states fsm → d ∈ states fsm →
  match edge_weight fsm s e d with
  | Some _ =>
      transitions (add_transition fsm s d e w).2
      = (λ t, if decide ((src t, event t, dst t) = (s, e, d))
              then mkTransition s e d w else t) <$> transitions fsm
  | None =>
      ∃ before after,
        transitions fsm = before ++ after ∧
        transitions (add_transition fsm s d e w).2
          = before ++ mkTransition s e d w :: after ∧
        (∀ t, t ∈ after → (src t, event t) ≠ (s, e)) ∧
        ((∃ t, last before = Some t ∧ (src t, event t) = (s, e)) ∨
         ((∀ t, t ∈ before → (src t, event t) ≠ (s, e)) ∧ after = []))
  end.
Proof.
  intros Hb Hs Hd. rewrite add_transition_ok by done.
  destruct (built_keys_unique _ Hb) as [Hk Hbk].
  pose proof (built_buckets_nonempty fsm) as Hne.
  unfold edge_weight, neighbors. destruct fsm as [st i l].
  cbn [_edges states initial snd] in *.
  destruct (get (s, e) l) as [b0|] eqn:Hg; cbn [default mbind option_bind];
    unfold Datatypes.id.
  - destruct (set_present (s, e) (set d w b0) b0 l Hg)
      as (l1 & l2 & -> & -> & Hn1).
    assert ((s, e) ∉ l2.*1) as Hn2.
    { rewrite fmap_app, fmap_cons in Hk.
      apply NoDup_app in Hk as (_ & _ & [? _]%NoDup_cons). done. }
    assert (NoDup b0.*1) as Hb0.
    { apply (Hbk (s, e)), elem_of_app. right. apply list_elem_of_here. }
    assert (b0 ≠ []) as Hb0ne.
    { apply (Hne (s, e) b0 Hb), elem_of_app. right. apply list_elem_of_here. }
    rewrite !transitions_app, !transitions_cons. cbn [fst snd].
    set (T1 := transitions (mkFSM st i l1)).
    set (T2 := transitions (mkFSM st i l2)).
    assert (∀ t, t ∈ T1 → (src t, event t) ≠ (s, e)) as HT1.
    { intros t Ht%transitions_key Heq. by rewrite Heq in Ht. }
    assert (∀ t, t ∈ T2 → (src t, event t) ≠ (s, e)) as HT2.
    { intros t Ht%transitions_key Heq. by rewrite Heq in Ht. }
    destruct (get d b0) as [w0|] eqn:Hgd.
    + destruct (set_present d w w0 b0 Hgd) as (m1 & m2 & -> & -> & Hm1).
      assert (d ∉ m2.*1) as Hm2.
      { rewrite fmap_app, fmap_cons in Hb0.
        apply NoDup_app in Hb0 as (_ & _ & [? _]%NoDup_cons). done. }
      repeat (rewrite fmap_app || rewrite fmap_cons). cbn [fst snd].
      rewrite decide_True by done.
      rewrite (fmap_fixed _ T1), (fmap_fixed _ T2); first last.
      { intros t Ht. rewrite decide_False; [done |].
        intros [= Hs' He' _]. by apply (HT1 t Ht); rewrite Hs', He'. }
      { intros t Ht. rewrite decide_False; [done |].
        intros [= Hs' He' _]. by apply (HT2 t Ht); rewrite Hs', He'. }
      rewrite !(fmap_fixed (λ t, if decide _ then _ else t)); [done | |].
      * intros t (dw & -> & Hdw)%list_elem_of_fmap. simpl.
        rewrite decide_False; [done |]. intros [= Hd'].
        apply Hm2, list_elem_of_fmap. by exists dw.
      * intros t (dw & -> & Hdw)%list_elem_of_fmap. simpl.
        rewrite decide_False; [done |]. intros [= Hd'].
        apply Hm1, list_elem_of_fmap. by exists dw.
    + destruct (set_absent d w b0 Hgd) as [-> _].
      rewrite fmap_app. cbn [fmap list_fmap fst snd].
      exists (T1 ++ ((λ dw, mkTransition s e dw.1 dw.2) <$> b0)), T2.
      split_and!.
      * by rewrite <-app_assoc.
      * by rewrite <-!app_assoc.
      * done.
      * left. destruct (exists_last Hb0ne) as (b1 & [d1 w1] & ->).
        exists (mkTransition s e d1 w1). split; [| done].
        rewrite fmap_app, app_assoc. cbn [fmap list_fmap fst snd].
        apply last_snoc.
  - destruct (set_absent (s, e) (set d w []) l Hg) as [-> Hnin].
    rewrite transitions_app, transitions_bucket. cbn [set fmap list_fmap].
    exists (transitions (mkFSM st i l)), []. split_and!.
    + by rewrite app_nil_r.
    + done.
    + by intros t ?%elem_of_nil.
    + right. split; [| done].
      intros t Ht%transitions_key Heq. by rewrite Heq in Ht.
Qed.

End fsm.
End FsmExtra.

(** ** logger.py: what redaction removes and what it keeps *)

Module LoggerExtra.
Import Logger LoggerDefs.

Lemma value_ind_nested (P : value → Prop) :
  P VNone → (∀ b, P (VBool b)) → (∀ x, P (VNum x)) → (∀ s, P (VStr s)) →
  (∀ items, Forall P items → P (VList items)) →
  (∀ items, Forall (λ kv, P kv.2) items → P (VDict items)) →
  ∀ obj, P obj.
Proof.
  intros Hnone Hbool Hnum Hstr Hlist Hdict. fix IH 1.
  intros [| b | x | s | items | items].
  - apply Hnone.
  - apply Hbool.
  - apply Hnum.
  - apply Hstr.
  - apply Hlist.
    induction items as [|a items IHl]; constructor; [apply IH | apply IHl].
  - apply Hdict.
    induction items as [|[k a] items IHl]; constructor;
      [apply IH | apply IHl].
Qed.

Lemma redact_clean obj : clean (_redact obj).
Proof.
  induction obj as [| b | x | s | items IH | items IH] using value_ind_nested;
    cbn [_redact]; try constructor.
  - apply Forall_fmap. eapply Forall_impl; [done |]. by intros x Hx.
  - apply Forall_fmap. eapply Forall_impl; [done |].
    intros [k a] Ha. cbn [fst snd compose] in *.
    destruct (decide (Spec.lower k ∈ REDACT_KEYS)); by split.
Qed.


(** X19.  Redaction leaves no secret: in [_redact(obj)], every key whose
    lowered name is one of [REDACT_KEYS] holds ["<redacted>"], at any
    depth of dictionaries and lists; in particular at the top of a
    redacted dictionary, whatever the case of the letters of the key. *)
Theorem redact_leaves_no_secret obj :
  clean (_redact obj) ∧
  ∀ items k v,
    _redact obj = VDict items → (k, v) ∈ items →
    Spec.lower k ∈ REDACT_KEYS → v = VStr "<redacted>".
Proof.
  pose proof (redact_clean obj) as Hc. split; [done |].
  intros items k v Heq Hin Hk. rewrite Heq in Hc.
  inversion Hc as [| | | | |items' Hitems]; subst.
  apply (proj1 (Forall_forall _ _) Hitems (k, v) Hin). exact Hk.
Qed.


End LoggerExtra.

(** ** The scenarios of the test suite *)

Module ScenarioFacts.
Import Fsm Graph Planner GraphDefs PlannerDefs Scenarios.
Import Dijkstra FsmFacts WalkFacts DetectFacts PlannerFacts DijkstraFacts.
Import Spec SpecDefs SpecFacts.

Lemma abc_built : built abc.
Proof. by apply (built_new ["A"; "B"; "C"] "A"). Qed.

Lemma graph_of_built l : built (graph_of l).
Proof.
  unfold graph_of. generalize abc_built. generalize abc.
  induction l as [|[[a b] x] l IH]; intros fsm Hb; simpl; [done |].
  apply IH. by constructor.
Qed.

Lemma states_graph_of l : states (graph_of l) = states abc.
Proof.
  unfold graph_of.
  assert (∀ fsm : FSM string string,
    states (foldl (λ fsm '(a, b, x), (add_transition fsm a b None x).2)
              fsm l) = states fsm) as Hgen; [| apply Hgen].
  induction l as [|[[a b] x] l IH]; intros fsm; simpl; [done |].
  rewrite IH. unfold add_transition. by case_decide.
Qed.

Lemma in_states_graph_of l a :
  a ∈ ["A"; "B"; "C"] → a ∈ states (graph_of l).
Proof.
  rewrite states_graph_of. unfold abc, states. by rewrite elem_of_list_to_set.
Qed.

(** Membership in a concrete list or in the states of a scenario. *)
Ltac in_list :=
  repeat first [apply list_elem_of_here | apply list_elem_of_further].
Ltac in_abc := apply in_states_graph_of; in_list.


Lemma negative_loop_cycle : negative_cycle (_edges_from_fsm negative_loop).
Proof.
  exists "A", [mkEdge "B" "A" (-3); mkEdge "A" "B" 1]. split_and!.
  - apply (walk_snoc _ "A" [mkEdge "A" "B" 1] (mkEdge "B" "A" (-3))).
    + apply (walk_snoc _ "A" [] (mkEdge "A" "B" 1)); [constructor |].
      apply list_elem_of_In. vm_compute. auto.
    + apply list_elem_of_In. vm_compute. auto.
  - apply (bool_decide_unpack _). by vm_compute.
  - by vm_compute.
Qed.

(** C2.  The graph with the states A, B, C and the edges A→B of weight 1,
    B→C of weight 2 and C→A of weight 3 is planned with [ok = True], the
    path [A, B, C, A] and the cost 6. *)
Theorem plan_simple_cycle :
  states simple_cycle = list_to_set ["A"; "B"; "C"] ∧
  transitions simple_cycle =
    [mkTransition "A" None "B" 1; mkTransition "B" None "C" 2;
     mkTransition "C" None "A" 3] ∧
  plan_cycle_ABC simple_cycle "A" "B" "C" false =
    Ok (mkPlanResult ["A"; "B"; "C"; "A"] (Fin 6) true "ok").
Proof.
  split_and!.
  - unfold simple_cycle. by rewrite states_graph_of.
  - by vm_compute.
  - by vm_compute.
Qed.


Lemma negative_cycle_unregistered_waypoint :
  negative_cycle (_edges_from_fsm negative_loop) ∧
  plan_cycle_ABC negative_loop "A" "B" "Z" false
    = Ok (failure "A/B/C not in FSM states") ∧
  contains "negative cycle" "A/B/C not in FSM states" = false.
Proof. split_and!; [apply negative_loop_cycle | by vm_compute..]. Qed.






Lemma add_transition_witness :
  add_transition abc "A" "Z" None 1
    = (Raise "src/dst must be existing states", abc) ∧
  ∃ fsm', add_transition abc "A" "B" None 1 = (Ok (), fsm') ∧
    states fsm' = states abc ∧
    edge_weight fsm' "A" None "B" = Some 1%Q ∧
    ∀ t, t ∈ transitions fsm' ↔
         t = mkTransition "A" None "B" 1 ∨
         (t ∈ transitions abc ∧
          (src t, event t, dst t) ≠ ("A", None, "B")).
Proof.
  destruct (@add_transition_closed_last_write_wins string string _ _ _)
    as [_ Hadd].
  destruct (Hadd abc "A" "B" None 1%Q abc_built) as [_ Hok].
  destruct (Hadd abc "A" "Z" None 1%Q abc_built) as [Hraise _].
  split.
  - apply Hraise. right. unfold abc, states.
    rewrite elem_of_list_to_set. intros Hin.
    repeat (apply elem_of_cons in Hin as [[=]|Hin]).
    by apply elem_of_nil in Hin.
  - apply Hok; unfold abc, states; rewrite elem_of_list_to_set; in_list.
Defined.

Lemma simple_cycle_edges :
  _edges_from_fsm simple_cycle
  = [mkEdge "A" "B" 1; mkEdge "B" "C" 2; mkEdge "C" "A" 3].
Proof. by vm_compute. Qed.

Lemma bellman_ford_equals_dijkstra_witness :
  ∃ res,
    bellman_ford ["A"; "B"; "C"] (_edges_from_fsm simple_cycle) "A" = Ok res.
Proof.
  apply (bellman_ford_equals_dijkstra ["A"; "B"; "C"]
           (_edges_from_fsm simple_cycle) "A").
  - in_list.
  - rewrite simple_cycle_edges.
    intros e He. repeat (apply elem_of_cons in He as [->|He]);
      [by vm_compute.. |]. by apply elem_of_nil in He.
  - rewrite simple_cycle_edges.
    intros e He. repeat (apply elem_of_cons in He as [->|He]);
      [split; in_list.. |]. by apply elem_of_nil in He.
Defined.

Ltac lookup_attrs :=
  unfold resolved_velocity; unfold resolve_duration; unfold attr;
  unfold credited_trip, superluminal_trip;
  repeat first
    [ rewrite lookup_insert_eq
    | rewrite lookup_insert_ne by done
    | rewrite lookup_singleton_eq
    | rewrite lookup_singleton_ne by done ];
  cbn [default].



Lemma cost_is_weighted_sum_witness :
  ∃ cost bd,
    aggregate_cost_with_breakdown credited_trip default_policy
      = Ok (cost, bd) ∧
    cost = scalar_cost default_policy bd.
Proof.
  destruct (aggregate_returns credited_trip default_policy)
    as [[cost bd] Hagg].
  - intros _ Hraise%check_raw_raises. revert Hraise. lookup_attrs.
    unfold Datatypes.id.
    intros [Hr|[Hr|[Hr|[Hr|[Hr|(b & [=] & _)]]]]];
      first [lra | apply Hr; lra].
  - intros _. lookup_attrs. simpl. case_decide as Hd; [destruct Hd |]; lra.
  - lookup_attrs. simpl. case_decide as Hd; [destruct Hd |]; lra.
  - exists cost, bd. split; [done |].
    apply (cost_is_weighted_sum credited_trip default_policy cost bd Hagg).
Defined.

(** The other scenarios of the test suite, evaluated on the model. *)
Example plan_negative_edge :
  plan_cycle_ABC negative_edge "A" "B" "C" false =
    Ok (mkPlanResult ["A"; "B"; "C"; "A"] (Fin 4) true "ok").
Proof. by vm_compute. Qed.

Example plan_negative_loop :
  plan_cycle_ABC negative_loop "A" "B" "C" false =
    Ok (failure "negative cycle exists in graph").
Proof. by vm_compute. Qed.

Example plan_negative_loop_filtered :
  plan_cycle_ABC negative_loop "A" "B" "C" true =
    Ok (mkPlanResult ["A"; "B"; "C"; "A"] (Fin 3) true "ok").
Proof. by vm_compute. Qed.

Example credited_trip_cost :
  ∃ cost bd,
    aggregate_cost_with_breakdown credited_trip default_policy
      = Ok (cost, bd) ∧ (cost < 0)%R.
Proof.
  destruct (aggregate_returns credited_trip default_policy)
    as [[cost bd] Hagg].
  - intros _ Hraise%check_raw_raises. revert Hraise. lookup_attrs.
    unfold Datatypes.id.
    intros [Hr|[Hr|[Hr|[Hr|[Hr|(b & [=] & _)]]]]];
      first [lra | apply Hr; lra].
  - intros _. lookup_attrs. simpl. case_decide as Hd; [destruct Hd |]; lra.
  - lookup_attrs. simpl. case_decide as Hd; [destruct Hd |]; lra.
  - exists cost, bd. split; [done |]. revert Hagg.
    unfold aggregate_cost_with_breakdown. rewrite resolve_beta_ok.
    lookup_attrs. unfold Datatypes.id, default_policy.
    cbn [energy_weight earth_time_weight crew_time_weight risk_weight
         allow_negative_edges strict_invariants energy_scale
         infer_velocity_from_distance_and_duration mode default lower
         from_option andb].
    rewrite (decide_False (P := (0 > 0 ∧ 10 > 0)%R)) by lra.
    rewrite (bool_decide_eq_false_2 ("" = "real_world")) by done.
    intros Hagg.
    repeat match type of Hagg with
    | obind ?m _ = Ok _ =>
        let x := fresh "x" in
        let E := fresh "E" in
        destruct m as [x|] eqn:E; cbn [obind] in Hagg; [| discriminate]
    end.
    injection Hagg as <- _.
    destruct (decide (0 > 0)%R) as [Hpos|_]; [lra |]. injection E1 as <-.
    destruct (decide (10 > 0)%R) as [_|Hneg]; [| lra].
    apply fdiv_inv in E2. apply math_log_inv in E3. apply fdiv_inv in E4.
    subst x2 x3 x4.
    replace (Rmax 1e-12 (1 - Rmin (Rmax 0 0) 0.999999)) with 1%R.
    2:{ rewrite (Rmax_left 0 0), (Rmin_left 0), Rmax_right; lra. }
    rewrite ln_1, (Rmax_right 1 1e9) by lra. lra.
Qed.

End ScenarioFacts.

(** ** The further properties on the scenarios *)

Module ExtraScenarios.
Import Fsm Graph Planner GraphDefs PathDefs PlannerDefs Scenarios.
Import FsmFacts WalkFacts DetectFacts PlannerFacts ScenarioFacts.
Import GraphExtra PlannerExtra FsmExtra.
Import Spec SpecDefs SpecFacts SpecExtra.
Import Logger LoggerDefs LoggerExtra.






Lemma credited_trip_returns :
  ∃ r, aggregate_cost_with_breakdown credited_trip default_policy = Ok r.
Proof.
  apply aggregate_returns.
  - intros _ Hraise%check_raw_raises. revert Hraise. lookup_attrs.
    unfold Datatypes.id.
    intros [Hr|[Hr|[Hr|[Hr|[Hr|(b & [=] & _)]]]]];
      first [lra | apply Hr; lra].
  - intros _. lookup_attrs. simpl. case_decide as Hd; [destruct Hd |]; lra.
  - lookup_attrs. simpl. case_decide as Hd; [destruct Hd |]; lra.
Qed.




Lemma bellman_ford_key_error_witness :
  (bellman_ford ["A"; "B"] [mkEdge "A" "Z" 1] "A" = Raise KeyError ↔
   ∃ e, e ∈ [mkEdge "A" "Z" 1] ∧ (u e ∉ ["A"; "B"] ∨ v e ∉ ["A"; "B"])) ∧
  ((∃ res, bellman_ford ["A"; "B"] [mkEdge "A" "Z" 1] "A" = Ok res) ↔
   closed_under ["A"; "B"] [mkEdge "A" "Z" 1]).
Proof.
  apply (bellman_ford_key_error ["A"; "B"] [mkEdge "A" "Z" 1] "A").
  - in_list.
  - simpl. lia.
Defined.










Lemma time_dilation_witness :
  ∃ cost bd,
    aggregate_cost_with_breakdown credited_trip default_policy
      = Ok (cost, bd) ∧
    (1 <= bd_gamma bd)%R.
Proof.
  destruct credited_trip_returns as [[cost bd] Hagg].
  exists cost, bd. split; [done |].
  apply (time_dilation credited_trip default_policy cost bd Hagg).
Defined.

Lemma risk_penalty_bounds_witness :
  ∃ cost bd,
    aggregate_cost_with_breakdown credited_trip default_policy
      = Ok (cost, bd) ∧
    (0 <= bd_risk_penalty bd <= - ln 0.000001)%R.
Proof.
  destruct credited_trip_returns as [[cost bd] Hagg].
  exists cost, bd. split; [done |].
  apply (risk_penalty_bounds credited_trip default_policy cost bd Hagg).
Defined.

Lemma effective_weights_bounds_witness :
  ∃ cost bd,
    aggregate_cost_with_breakdown credited_trip default_policy
      = Ok (cost, bd) ∧
    ew_energy (bd_effective_weights bd) = energy_weight default_policy.
Proof.
  destruct credited_trip_returns as [[cost bd] Hagg].
  exists cost, bd. split; [done |].
  apply (effective_weights_bounds credited_trip default_policy cost bd Hagg).
Defined.

Lemma built_initial_registered_witness :
  initial simple_cycle ∈ states simple_cycle.
Proof.
  apply (built_initial_registered simple_cycle). apply graph_of_built.
Defined.

Lemma transitions_neighbors_witness :
  NoDup ((λ t, (src t, event t, dst t)) <$> transitions simple_cycle) ∧
  ∀ s e d w,
    mkTransition s e d w ∈ transitions simple_cycle ↔
    OrderedDict.get d (neighbors simple_cycle s e) = Some w.
Proof.
  apply (transitions_neighbors simple_cycle). apply graph_of_built.
Defined.

Lemma add_transition_order_witness :
  transitions (add_transition simple_cycle "B" "C" None 7).2
  = (λ t, if decide ((src t, event t, dst t) = ("B", None, "C"))
          then mkTransition "B" None "C" 7 else t)
      <$> transitions simple_cycle.
Proof.
  pose proof (add_transition_order simple_cycle "B" "C" None 7
                (graph_of_built _)) as Horder.
  assert (edge_weight simple_cycle "B" None "C" = Some 2%Q) as Hw
    by by vm_compute.
  rewrite Hw in Horder. apply Horder; in_abc.
Defined.

End ExtraScenarios.
